(** * A finite-state-machine engine (package [fsm]) and its specification

    The Go package keeps one current state and a map from
    [(from, event)] keys to transitions.  This file embeds the package
    ([fsm.go]) in Rocq and proves the properties its specification states.

    Conventions of the embedding:
    - Go strings are byte strings; [State] and [Event] are Rocq [string]s
      and Go's [<] on strings is [String.ltb] (byte-wise lexicographic).
    - the Go [map[eKey]*Transition] is a [gmap]; the field is [None] while
      the Go map is [nil] (reads of a [nil] map behave as reads of the empty
      map, which is what [tmap] gives);
    - a [*Transition] argument may be [nil] ([None]); so may the function
      value [Handle].  Dereferencing or calling [nil] makes the Go code
      panic, which is the outcome [Panics];
    - handlers are Go closures: they may read and change the caller's own
      data, the [World].  They cannot change the machine: its fields are
      private, and a handler that calls [Trigger] or [AddTransitions] on
      its own machine waits for the mutex for ever.  Handlers that panic
      or do not return are left out;
    - registered [Transition] records are taken by value: callers do not
      mutate a record after handing it to [AddTransitions]. *)

From Stdlib Require Import String Ascii.
From stdpp Require Import gmap strings list sorting pretty.

Local Open Scope string_scope.
Local Open Scope list_scope.

(** ** Data model *)

Abbreviation State := string (only parsing).
Abbreviation Event := string (only parsing).

(** A Go [error] value, identified by the message its [Error()] method
    returns. *)
Record error := errorString { Error : string }.

Record eKey := EKey { eKey_From : State; eKey_Event : Event }.

Global Instance eKey_eq_dec : EqDecision eKey.
Proof. solve_decision. Defined.

Global Instance eKey_countable : Countable eKey.
Proof.
  apply (inj_countable' (λ k, (eKey_From k, eKey_Event k))
                        (λ p, EKey p.1 p.2)).
  by intros [].
Defined.

(** What a call of a Go function with result type [error] does: it returns
    ([nil] is [None]) or it panics. *)
Inductive outcome :=
  | Returns (err : option error)
  | Panics.

(** ** Go library functions used by the package *)

(** [sort.Slice(s, less)] and [sort.Strings(s)]: the slice is rearranged
    until no element is [less] than one before it.  On slices without
    repeated elements and for a [less] that is a strict total order there is
    one such arrangement (lemma [sort_Slice_unique] below), so the
    algorithm Go uses does not matter. *)
Definition in_order {A} (less : A → A → bool) (a b : A) : Prop :=
  less b a = false.

Global Instance in_order_dec {A} (less : A → A → bool) :
  RelDecision (in_order less).
Proof. intros a b. unfold in_order. apply _. Defined.

Definition sort_Slice {A} (less : A → A → bool) (s : list A) : list A :=
  merge_sort (in_order less) s.

Definition sort_Strings (s : list string) : list string :=
  sort_Slice String.ltb s.

(** The comparison closure given to [sort.Slice] in
    [getSortedTransitionKeys]. *)
Definition less (a b : eKey) : bool :=
  if decide (eKey_From a = eKey_From b)
  then String.ltb (eKey_Event a) (eKey_Event b)
  else String.ltb (eKey_From a) (eKey_From b).

(** The line break and the double quote of the Go string literals. *)
Definition nl : string := String "010"%char EmptyString.
Definition dq : string := String "034"%char EmptyString.

(** A loop [for _, x := range xs] whose body writes one formatted line
    and a newline to a [strings.Builder]; the body panics ([None]) when
    it dereferences a [nil] map entry. *)
Fixpoint write_lines {A} (line : A → option string) (xs : list A)
    (buf : string) : option string :=
  match xs with
  | [] => Some buf
  | x :: xs => s ← line x; write_lines line xs (buf +:+ s +:+ nl)
  end.

(** The lines of a text, each closed by a line break, one after another. *)
Definition join_lines (ls : list string) : string :=
  foldr (λ l rest, l +:+ nl +:+ rest) EmptyString ls.

(** The lines of a text: what stands between its line breaks. *)
Fixpoint lines (s : string) : list string :=
  match s with
  | EmptyString => []
  | String c rest =>
      if decide (c = "010"%char) then EmptyString :: lines rest
      else match lines rest with
           | [] => [String c EmptyString]
           | l :: ls => String c l :: ls
           end
  end.

(** The place of a name in a list of names, and the identifier [id<place>]
    the flow chart gives to a state; a name that is not in the list has the
    empty identifier. *)
Fixpoint position (s : string) (states : list string) : option nat :=
  match states with
  | [] => None
  | x :: rest => if decide (x = s) then Some 0 else S <$> position s rest
  end.

Definition synthetic_id (states : list string) (s : string) : string :=
  match position s states with
  | Some i => "id" +:+ pretty i
  | None => EmptyString
  end.

(** The orders of the renderer as relations: strictly before. *)
Definition string_lt (a b : string) : Prop := String.ltb a b = true.
Definition key_lt (a b : eKey) : Prop := less a b = true.

Section Machine.
Context {World : Type}.

Definition TransitionHandler : Type :=
  State → Event → State → World → option error * World.

Record Transition := MkTransition {
  Transition_From : State;
  Transition_Event : Event;
  Transition_To : State;
  Transition_Handle : option TransitionHandler
}.

Record StateMachine := MkStateMachine {
  current : State;
  transitions : option (gmap eKey Transition)
}.

(** Reading the map field, [nil] or not. *)
Definition tmap (fm : StateMachine) : gmap eKey Transition :=
  default ∅ (transitions fm).

Definition key_of (t : Transition) : eKey :=
  EKey (Transition_From t) (Transition_Event t).

Definition NewStateMachine (current : State) : StateMachine :=
  MkStateMachine current None.

Definition CurrentState (fm : StateMachine) : State := current fm.

Definition undefined_error (s : State) (e : Event) : error :=
  errorString ("state, event: [" +:+ s +:+ ", " +:+ e +:+ "] undefined").

Definition existed_error (s : State) (e : Event) : error :=
  errorString ("state, event: [" +:+ s +:+ ", " +:+ e +:+ "] existed").

Definition Trigger (fm : StateMachine) (event : Event) (w : World)
  : outcome * StateMachine * World :=
  match tmap fm !! EKey (current fm) event with
  | Some trans =>
      match Transition_Handle trans with
      | None => (Panics, fm, w)
      | Some handle =>
          match handle (current fm) event (Transition_To trans) w with
          | (Some err, w') => (Returns (Some err), fm, w')
          | (None, w') =>
              (Returns None,
               MkStateMachine (Transition_To trans) (transitions fm), w')
          end
      end
  | None => (Returns (Some (undefined_error (current fm) event)), fm, w)
  end.

Definition addTransition (fm : StateMachine) (transition : option Transition)
  : outcome * StateMachine :=
  match transition with
  | None => (Panics, fm)
  | Some t =>
      let from := Transition_From t in
      let event := Transition_Event t in
      let fm :=
        match transitions fm with
        | None => MkStateMachine (current fm) (Some ∅)
        | Some _ => fm
        end in
      match tmap fm !! EKey from event with
      | Some _ => (Returns (Some (existed_error from event)), fm)
      | None =>
          (Returns None,
           MkStateMachine (current fm) (Some (<[EKey from event := t]> (tmap fm))))
      end
  end.

Fixpoint AddTransitions (fm : StateMachine) (ts : list (option Transition))
  : outcome * StateMachine :=
  match ts with
  | [] => (Returns None, fm)
  | transition :: ts =>
      match addTransition fm transition with
      | (Returns None, fm') => AddTransitions fm' ts
      | (res, fm') => (res, fm')
      end
  end.

(** ** The renderer, [View] *)

(** Go's [range] over a map visits the entries in an order the language
    leaves open, and the order may differ from one loop to the next.
    [View] has three such loops; a [ranging] fixes the order of each. *)
Record ranging := MkRanging {
  range_keys : gmap eKey Transition → list (eKey * Transition);
  range_targets : gmap eKey Transition → list (eKey * Transition);
  range_states : gmap string string → list (string * string)
}.

Definition getSortedTransitionKeys (r : ranging)
    (transitions : gmap eKey Transition) : list eKey :=
  let sortedTransitionKeys := (range_keys r transitions).*1 in
  sort_Slice less sortedTransitionKeys.

Definition mark (state : string) (m : gmap string string)
  : gmap string string :=
  match m !! state with
  | Some _ => m
  | None => <[state := EmptyString]> m
  end.

(** One round of the first loop of [getSortedStates]: the [From] of the
    key and the [To] of the target are entered, unless present. *)
Definition mark_entry (m : gmap string string) (kv : eKey * Transition)
  : gmap string string :=
  mark (Transition_To kv.2) (mark (eKey_From kv.1) m).

(** The state names a list of table entries mentions. *)
Definition states_of (l : list (eKey * Transition)) : list string :=
  l ≫= (λ kv, [eKey_From kv.1; Transition_To kv.2]).

(** [for i, state := range sortedStates { m[state] = Sprintf("id%d", i) }] *)
Fixpoint assign_ids (i : nat) (sortedStates : list string)
    (m : gmap string string) : gmap string string :=
  match sortedStates with
  | [] => m
  | state :: rest => assign_ids (S i) rest (<[state := "id" +:+ pretty i]> m)
  end.

Definition getSortedStates (r : ranging)
    (transitions : gmap eKey Transition)
  : list string * gmap string string :=
  let statesToIDMap :=
    foldl mark_entry ∅ (range_targets r transitions) in
  let sortedStates := (range_states r statesToIDMap).*1 in
  let sortedStates := sort_Strings sortedStates in
  (sortedStates, assign_ids 0 sortedStates statesToIDMap).

(** [statesToIDMap[s]]: a missing key reads as the empty string. *)
Definition id_of (statesToIDMap : gmap string string) (s : string) : string :=
  default EmptyString (statesToIDMap !! s).

Definition highlightingColor : string := "#00AA00".

Definition View (r : ranging) (fm : StateMachine)
  : option (string * string * string) :=
  let sortedTransitionKeys := getSortedTransitionKeys r (tmap fm) in
  let sortedStates := (getSortedStates r (tmap fm)).1 in
  let statesToIDMap := (getSortedStates r (tmap fm)).2 in
  bufFlowChart ← (
    let buf := "graph LR" +:+ nl in
    buf ← write_lines
      (λ state, Some ("    " +:+ id_of statesToIDMap state +:+ "[" +:+ state +:+ "]"))
      sortedStates buf;
    let buf := buf +:+ nl in
    buf ← write_lines
      (λ transition,
         target ← tmap fm !! transition;
         Some ("    " +:+ id_of statesToIDMap (eKey_From transition)
               +:+ " --> |" +:+ eKey_Event transition +:+ "| "
               +:+ id_of statesToIDMap (Transition_To target)))
      sortedTransitionKeys buf;
    let buf := buf +:+ nl in
    let buf := buf +:+ ("    style " +:+ id_of statesToIDMap (current fm)
                        +:+ " fill:" +:+ highlightingColor) in
    Some (buf +:+ nl));
  bufDiagram ← (
    let buf := "stateDiagram" +:+ nl in
    let buf := buf +:+ ("    [*] -->" +:+ " " +:+ current fm +:+ nl) in
    write_lines
      (λ k,
         v ← tmap fm !! k;
         Some ("    " +:+ eKey_From k +:+ " --> " +:+ Transition_To v
               +:+ ": " +:+ eKey_Event k))
      sortedTransitionKeys buf);
  bufGraphViz ← (
    let buf := "digraph fsm {" in
    let buf := buf +:+ nl in
    buf ← write_lines
      (λ k,
         v ← tmap fm !! k;
         Some ("    " +:+ dq +:+ eKey_From k +:+ dq +:+ " -> "
               +:+ dq +:+ Transition_To v +:+ dq
               +:+ " [ label = " +:+ dq +:+ eKey_Event k +:+ dq +:+ " ];"))
      sortedTransitionKeys buf;
    let buf := buf +:+ nl in
    buf ← write_lines
      (λ k,
         Some (if decide (k = current fm)
               then "    " +:+ dq +:+ k +:+ dq +:+ " [color = "
                    +:+ dq +:+ "red" +:+ dq +:+ "];"
               else "    " +:+ dq +:+ k +:+ dq +:+ ";"))
      sortedStates buf;
    Some (buf +:+ ("}" +:+ nl)));
  Some (bufGraphViz, bufFlowChart, bufDiagram).

(** A [ranging] is faithful to Go when each loop visits every entry of
    the map it ranges over exactly once, in whatever order. *)
Definition faithful (r : ranging) : Prop :=
  (∀ m, range_keys r m ≡ₚ map_to_list m) ∧
  (∀ m, range_targets r m ≡ₚ map_to_list m) ∧
  (∀ m, range_states r m ≡ₚ map_to_list m).

(** The ranging that follows the internal order of [gmap], and the one
    that goes through it backwards. *)
Definition forward_ranging : ranging :=
  MkRanging map_to_list map_to_list map_to_list.

Definition backward_ranging : ranging :=
  MkRanging (λ m, reverse (map_to_list m)) (λ m, reverse (map_to_list m))
            (λ m, reverse (map_to_list m)).

(** ** Histories of calls *)

Inductive call :=
  | CallAddTransitions (ts : list (option Transition))
  | CallTrigger (event : Event).

(** One call on the machine.  Next to the machine and the world, the
    transitions that [Trigger] applied with success are logged, oldest
    first; the log is not part of the Go program. *)
Definition step (st : StateMachine * World * list Transition) (c : call)
  : StateMachine * World * list Transition :=
  let '(fm, w, applied) := st in
  match c with
  | CallAddTransitions ts => ((AddTransitions fm ts).2, w, applied)
  | CallTrigger event =>
      let '(res, fm', w') := Trigger fm event w in
      (fm', w',
       match res, tmap fm !! EKey (current fm) event with
       | Returns None, Some trans => applied ++ [trans]
       | _, _ => applied
       end)
  end.

Definition run (init : State) (w : World) (calls : list call)
  : StateMachine * World * list Transition :=
  foldl step (NewStateMachine init, w, []) calls.

(** Every entry of the table sits under the key made of its own [From]
    and [Event]. *)
Definition keyed (fm : StateMachine) : Prop :=
  ∀ k t, tmap fm !! k = Some t → k = key_of t.

(** What every history keeps true: the current state is the [To] of the
    last transition applied, or the initial state when none was; the
    table is [keyed]; the transitions applied are in the table. *)
Definition provenance (init : State)
    (st : StateMachine * World * list Transition) : Prop :=
  current st.1.1 = default init (last (Transition_To <$> st.2)) ∧
  keyed st.1.1 ∧
  ∀ t, t ∈ st.2 → tmap st.1.1 !! key_of t = Some t.

(** ** The lines the renderer writes, as the specification words them *)

Definition diagram_line (e : eKey * Transition) : string :=
  "    " +:+ eKey_From e.1 +:+ " --> " +:+ Transition_To e.2
  +:+ ": " +:+ eKey_Event e.1.

Definition graphviz_edge (e : eKey * Transition) : string :=
  "    " +:+ dq +:+ eKey_From e.1 +:+ dq +:+ " -> "
  +:+ dq +:+ Transition_To e.2 +:+ dq
  +:+ " [ label = " +:+ dq +:+ eKey_Event e.1 +:+ dq +:+ " ];".

Definition graphviz_node (cur : State) (k : string) : string :=
  if decide (k = cur)
  then "    " +:+ dq +:+ k +:+ dq +:+ " [color = " +:+ dq +:+ "red" +:+ dq +:+ "];"
  else "    " +:+ dq +:+ k +:+ dq +:+ ";".

Definition flowchart_node (id : string → string) (state : string) : string :=
  "    " +:+ id state +:+ "[" +:+ state +:+ "]".

Definition flowchart_edge (id : string → string) (e : eKey * Transition)
  : string :=
  "    " +:+ id (eKey_From e.1) +:+ " --> |" +:+ eKey_Event e.1
  +:+ "| " +:+ id (Transition_To e.2).

(** The three texts, line by line, from the entries [es] of the table
    sorted by key and the state names [states] sorted. *)
Definition render_graphviz (cur : State) (es : list (eKey * Transition))
    (states : list string) : string :=
  join_lines (["digraph fsm {"] ++ (graphviz_edge <$> es) ++ [EmptyString]
              ++ (graphviz_node cur <$> states) ++ ["}"]).

Definition render_flowchart (cur : State) (es : list (eKey * Transition))
    (states : list string) : string :=
  join_lines (["graph LR"] ++ (flowchart_node (synthetic_id states) <$> states)
              ++ [EmptyString]
              ++ (flowchart_edge (synthetic_id states) <$> es)
              ++ [EmptyString]
              ++ ["    style " +:+ synthetic_id states cur +:+ " fill:#00AA00"]).

Definition render_diagram (cur : State) (es : list (eKey * Transition))
  : string :=
  join_lines (["stateDiagram"; "    [*] --> " +:+ cur] ++ (diagram_line <$> es)).

(** The states of a table: every [from] of a key and every [to] of a
    transition. *)
Definition is_state (m : gmap eKey Transition) (s : string) : Prop :=
  ∃ k t, m !! k = Some t ∧ (s = eKey_From k ∨ s = Transition_To t).

End Machine.

Arguments Transition : clear implicits.
Arguments StateMachine : clear implicits.
Arguments TransitionHandler : clear implicits.
Arguments ranging : clear implicits.

Arguments call : clear implicits.

(** ** The scenarios of the specification *)

(** A handler that succeeds, and one that fails, on a world of their own
    that counts the handler calls. *)
Definition succeed : TransitionHandler nat := λ _ _ _ w, (None, S w).

Definition handler_failure : error := errorString "handler refused".

Definition refuse : TransitionHandler nat :=
  λ _ _ _ w, (Some handler_failure, S w).

Definition transition (from : State) (event : Event) (to : State)
    (h : TransitionHandler nat) : option (Transition nat) :=
  Some (MkTransition from event to (Some h)).

(** Scenario A: start in [Pending], register [Pay] and [Cancel]. *)
Definition scenarioA : StateMachine nat :=
  (AddTransitions (NewStateMachine "Pending")
     [transition "Pending" "Pay" "Paid" succeed;
      transition "Pending" "Cancel" "Canceled" succeed]).2.

(** Scenario C: a transition whose handler always fails. *)
Definition scenarioC : StateMachine nat :=
  (AddTransitions (NewStateMachine "A") [transition "A" "X" "B" refuse]).2.

(** Scenario D: a cycle of three states, registered out of order. *)
Definition scenarioD : StateMachine nat :=
  (AddTransitions (NewStateMachine "A")
     [transition "C" "e3" "A" succeed;
      transition "A" "e1" "B" succeed;
      transition "B" "e2" "C" succeed]).2.

(** The same cycle registered in another order, one transition per call
    as the example program does. *)
Definition scenarioD_reordered : StateMachine nat :=
  (AddTransitions
     (AddTransitions
        (AddTransitions (NewStateMachine "A")
           [transition "B" "e2" "C" succeed]).2
        [transition "A" "e1" "B" succeed]).2
     [transition "C" "e3" "A" succeed]).2.

(** ** The example program of the repository *)

(** [example/simple.go]: an order workflow.  Its handler logs a line and
    returns [nil]; the world is the log. *)
Module OrderExample.

Definition StatePending : State := "待支付".
Definition StatePaid : State := "已支付".
Definition StateRefunding : State := "退款中".
Definition StateShipped : State := "已发货".
Definition StateReturning : State := "退货中".
Definition StateCanceled : State := "已取消".
Definition StateComplete : State := "已完成".

Definition EventPaySuccess : Event := "支付成功".
Definition EventApplyRefund : Event := "申请退款".
Definition EventRefuseRefund : Event := "拒绝退款".
Definition EventRefundSuccess : Event := "退款成功".
Definition EventCancel : Event := "取消订单".
Definition EventShip : Event := "发货".
Definition EventApplyReturn : Event := "申请退货".
Definition EventRefuseReturn : Event := "拒绝退货".
Definition EventReturnSuccess : Event := "退货成功".
Definition EventConfirmReceipt : Event := "确认收货".

Definition eTos : list (State * Event * State) :=
  [(StatePending, EventCancel, StateCanceled);
   (StatePending, EventPaySuccess, StatePaid);
   (StatePaid, EventCancel, StateRefunding);
   (StatePaid, EventApplyRefund, StateRefunding);
   (StateRefunding, EventRefundSuccess, StateCanceled);
   (StateRefunding, EventRefuseRefund, StatePaid);
   (StatePaid, EventShip, StateShipped);
   (StateShipped, EventApplyReturn, StateReturning);
   (StateReturning, EventRefuseReturn, StateShipped);
   (StateReturning, EventReturnSuccess, StateRefunding);
   (StateShipped, EventConfirmReceipt, StateComplete);
   (StateShipped, EventCancel, StateReturning);
   (StateReturning, EventConfirmReceipt, StateComplete)].

Definition Handle : TransitionHandler (list string) :=
  λ from e to log,
    (None,
     log ++ ["处理事件... [" +:+ from +:+ "]->(" +:+ e +:+ ")->[" +:+ to +:+ "]"]).

(** The loop of [main]: one [AddTransitions] call per entry, stopping at
    the first error. *)
Fixpoint register (fm : StateMachine (list string))
    (es : list (State * Event * State))
  : outcome * StateMachine (list string) :=
  match es with
  | [] => (Returns None, fm)
  | (F, E, T) :: es =>
      match AddTransitions fm [Some (MkTransition F E T (Some Handle))] with
      | (Returns None, fm') => register fm' es
      | (err, fm') => (err, fm')
      end
  end.

Definition fm : StateMachine (list string) :=
  (register (NewStateMachine StatePending) eTos).2.

End OrderExample.

(** ** The lock *)

(** What a method does with the mutex and with the two fields it guards,
    in program order.  [defer fm.mutex.Unlock()] runs when the method
    returns or panics. *)
Module Locking.

Inductive access :=
  | Lock
  | Unlock
  | ReadCurrent
  | WriteCurrent
  | ReadTransitions
  | WriteTransitions
  | CallHandle.

Section Accesses.
Context {World : Type}.

Definition Trigger_accesses (fm : StateMachine World) (event : Event)
    (w : World) : list access :=
  [Lock; ReadTransitions; ReadCurrent] ++
  match tmap fm !! EKey (current fm) event with
  | Some trans =>
      [ReadCurrent] ++
      match Transition_Handle trans with
      | None => []
      | Some handle =>
          [CallHandle] ++
          match (handle (current fm) event (Transition_To trans) w).1 with
          | Some _ => []
          | None => [WriteCurrent]
          end
      end
  | None => [ReadCurrent]
  end ++ [Unlock].

Definition addTransition_accesses (fm : StateMachine World)
    (transition : option (Transition World)) : list access :=
  match transition with
  | None => []
  | Some t =>
      [ReadTransitions] ++
      match transitions fm with
      | None => [WriteTransitions]
      | Some _ => []
      end ++
      [ReadTransitions] ++
      match tmap fm !! key_of t with
      | Some _ => []
      | None => [ReadTransitions; WriteTransitions]
      end
  end.

Fixpoint AddTransitions_loop (fm : StateMachine World)
    (ts : list (option (Transition World))) : list access :=
  match ts with
  | [] => []
  | transition :: ts =>
      addTransition_accesses fm transition ++
      match addTransition fm transition with
      | (Returns None, fm') => AddTransitions_loop fm' ts
      | _ => []
      end
  end.

Definition AddTransitions_accesses (fm : StateMachine World)
    (ts : list (option (Transition World))) : list access :=
  [Lock] ++ AddTransitions_loop fm ts ++ [Unlock].

Definition CurrentState_accesses (fm : StateMachine World) : list access :=
  [ReadCurrent].

Definition View_accesses (r : ranging World) (fm : StateMachine World)
  : list access :=
  let sortedTransitionKeys := getSortedTransitionKeys r (tmap fm) in
  let sortedStates := (getSortedStates r (tmap fm)).1 in
  [ReadTransitions; ReadTransitions] ++
  ((λ _, ReadTransitions) <$> sortedTransitionKeys) ++ [ReadCurrent] ++
  [ReadCurrent] ++ ((λ _, ReadTransitions) <$> sortedTransitionKeys) ++
  ((λ _, ReadTransitions) <$> sortedTransitionKeys) ++ ((λ _, ReadCurrent) <$> sortedStates).

End Accesses.

(** Every read and write of a guarded field happens while the mutex is
    held, and the mutex is free at the end. *)
Fixpoint guarded_from (held : bool) (tr : list access) : bool :=
  match tr with
  | [] => negb held
  | Lock :: tr => negb held && guarded_from true tr
  | Unlock :: tr => held && guarded_from false tr
  | CallHandle :: tr => guarded_from held tr
  | _ :: tr => held && guarded_from held tr
  end.

Definition guarded (tr : list access) : bool := guarded_from false tr.

(** The accesses to the two fields, as opposed to those to the mutex. *)
Definition is_field (a : access) : bool :=
  match a with
  | Lock | Unlock => false
  | _ => true
  end.

End Locking.

(** ** Further definitions for the properties beyond the specification *)

(** The transitions the loop of [main] registers, as one batch. *)
Definition order_batch (es : list (State * Event * State))
  : list (option (Transition (list string))) :=
  (λ e, Some (MkTransition e.1.1 e.1.2 e.2 (Some OrderExample.Handle))) <$> es.


(** Whether the mutex is held after a sequence of accesses. *)
Definition held_after (held : bool) (tr : list Locking.access) : bool :=
  foldl (λ h a,
           match a with
           | Locking.Lock => true
           | Locking.Unlock => false
           | _ => h
           end) held tr.

(** A transition registered without handler: the [Handle] field is left
    [nil]. *)
Definition bare_transition : Transition nat :=
  MkTransition "A" "X" "B" None.

(** * Properties *)

(** ** Trigger *)

Section TriggerProperties.
Context {World : Type}.
Implicit Types (fm : StateMachine World) (t : Transition World)
  (w : World) (event : Event).

Lemma Trigger_found fm event w t handle :
  tmap fm !! EKey (current fm) event = Some t →
  Transition_Handle t = Some handle →
  Trigger fm event w =
    match handle (current fm) event (Transition_To t) w with
    | (Some err, w') => (Returns (Some err), fm, w')
    | (None, w') =>
        (Returns None, MkStateMachine (Transition_To t) (transitions fm), w')
    end.
Proof. intros Hk Hh. unfold Trigger. by rewrite Hk, Hh. Qed.

Lemma Trigger_tmap fm event w : tmap (Trigger fm event w).1.2 = tmap fm.
Proof.
  unfold Trigger.
  destruct (tmap fm !! _) as [t|]; [|done].
  destruct (Transition_Handle t) as [handle|]; [|done].
  by destruct (handle _ _ _ _) as [[err|] w'].
Qed.

(** C1. When the key [(current, event)] is registered and its handler
    returns an error, [Trigger] returns that very error and leaves the
    machine as it was: the current state is the one before the call and
    so is the table.  The handler ran once, on the state before the
    call. *)
Theorem Trigger_handler_error fm event w t handle err w' :
  tmap fm !! EKey (current fm) event = Some t →
  Transition_Handle t = Some handle →
  handle (current fm) event (Transition_To t) w = (Some err, w') →
  Trigger fm event w = (Returns (Some err), fm, w') ∧
  CurrentState (Trigger fm event w).1.2 = CurrentState fm.
Proof.
  intros Hk Hh Herr.
  rewrite (Trigger_found _ _ _ _ _ Hk Hh), Herr. done.
Qed.

(** C4. When no transition is registered for [(current, event)],
    [Trigger] fails with the error whose message names the current state
    and the event, and nothing changes: not the current state, not the
    table, not the caller's world. *)
Theorem Trigger_undefined fm event w :
  tmap fm !! EKey (current fm) event = None →
  Trigger fm event w =
    (Returns (Some (errorString
       ("state, event: [" +:+ current fm +:+ ", " +:+ event +:+ "] undefined"))),
     fm, w) ∧
  CurrentState (Trigger fm event w).1.2 = CurrentState fm.
Proof. intros Hk. unfold Trigger. rewrite Hk. done. Qed.

(** C6, as amended.  [Trigger] succeeds exactly when the key
    [(current, event)] is registered with a handler and that handler,
    run on the current state, returns no error. *)
Theorem Trigger_succeeds_iff fm event w :
  (Trigger fm event w).1.1 = Returns None ↔
  ∃ t handle w',
    tmap fm !! EKey (current fm) event = Some t ∧
    Transition_Handle t = Some handle ∧
    handle (current fm) event (Transition_To t) w = (None, w').
Proof.
  unfold Trigger. split.
  - destruct (tmap fm !! _) as [t|] eqn:Hk; [|done].
    destruct (Transition_Handle t) as [handle|] eqn:Hh; [|done].
    destruct (handle _ _ _ _) as [[err|] w'] eqn:Hrun; [done|].
    intros _. by exists t, handle, w'.
  - intros (t & handle & w' & -> & -> & ->). done.
Qed.

End TriggerProperties.

(** C3. When the current state has a registered transition for the event
    and its handler returns no error, [Trigger] returns [nil] and the
    current state becomes the transition's [To]; the table is kept.  In
    scenario A, [Trigger(Pay)] succeeds and the current state is [Paid]. *)
Theorem Trigger_success :
  (∀ World (fm : StateMachine World) event w t handle w',
     tmap fm !! EKey (current fm) event = Some t →
     Transition_Handle t = Some handle →
     handle (current fm) event (Transition_To t) w = (None, w') →
     Trigger fm event w =
       (Returns None, MkStateMachine (Transition_To t) (transitions fm), w') ∧
     CurrentState (Trigger fm event w).1.2 = Transition_To t) ∧
  (CurrentState scenarioA = "Pending" ∧
   (Trigger scenarioA "Pay" 0).1.1 = Returns None ∧
   CurrentState (Trigger scenarioA "Pay" 0).1.2 = "Paid").
Proof.
  split.
  - intros World fm event w t handle w' Hk Hh Hrun.
    rewrite (Trigger_found _ _ _ _ _ Hk Hh), Hrun. done.
  - vm_compute. done.
Qed.

Lemma Trigger_handler_error_witness :
  Trigger scenarioC "X" 0 = (Returns (Some handler_failure), scenarioC, 1) ∧
  CurrentState (Trigger scenarioC "X" 0).1.2 = CurrentState scenarioC.
Proof.
  apply (Trigger_handler_error scenarioC "X" 0
           (MkTransition "A" "X" "B" (Some refuse)) refuse handler_failure 1);
    reflexivity.
Defined.

Lemma Trigger_undefined_witness :
  Trigger scenarioA "Ship" 0 =
    (Returns (Some (errorString "state, event: [Pending, Ship] undefined")),
     scenarioA, 0) ∧
  CurrentState (Trigger scenarioA "Ship" 0).1.2 = CurrentState scenarioA.
Proof. apply (Trigger_undefined scenarioA "Ship" 0). reflexivity. Defined.

Lemma Trigger_success_witness :
  Trigger scenarioA "Cancel" 0 =
    (Returns None, MkStateMachine "Canceled" (transitions scenarioA), 1) ∧
  CurrentState (Trigger scenarioA "Cancel" 0).1.2 = "Canceled".
Proof.
  apply (proj1 Trigger_success nat scenarioA "Cancel" 0
           (MkTransition "Pending" "Cancel" "Canceled" (Some succeed)) succeed 1);
    reflexivity.
Defined.

(** C6 as the specification states it fails in scenario C: the key
    [(A, X)] is registered, the state [A] is the initial one, and
    [Trigger(X)] does not succeed, because the handler refuses. *)
Lemma Trigger_registered_yet_fails :
  ¬ ((Trigger scenarioC "X" 0).1.1 = Returns None ↔
     is_Some (tmap scenarioC !! EKey (current scenarioC) "X")).
Proof.
  intros [_ Hreg].
  assert (Hfail : (Trigger scenarioC "X" 0).1.1 = Returns (Some handler_failure))
    by reflexivity.
  rewrite Hreg in Hfail; [discriminate|].
  by eexists.
Qed.

(** ** Registration *)

Section Registration.
Context {World : Type}.
Implicit Types (fm : StateMachine World) (t : Transition World)
  (ts : list (option (Transition World))).

Lemma tmap_made fm :
  tmap (match transitions fm with
        | None => MkStateMachine (current fm) (Some ∅)
        | Some _ => fm
        end) = tmap fm.
Proof. by destruct fm as [c [m|]]. Qed.

Lemma addTransition_fresh fm t :
  tmap fm !! key_of t = None →
  addTransition fm (Some t) =
    (Returns None,
     MkStateMachine (current fm) (Some (<[key_of t := t]> (tmap fm)))).
Proof.
  intros Hk. unfold addTransition. fold (key_of t).
  rewrite tmap_made, Hk. by destruct fm as [c [m|]].
Qed.

Lemma addTransition_duplicate fm t t0 :
  tmap fm !! key_of t = Some t0 →
  addTransition fm (Some t) =
    (Returns (Some (existed_error (Transition_From t) (Transition_Event t))),
     fm).
Proof.
  intros Hk. unfold addTransition. fold (key_of t).
  rewrite tmap_made, Hk. destruct fm as [c [m|]]; [done|].
  unfold tmap in Hk. simpl in Hk. by rewrite lookup_empty in Hk.
Qed.

(** The three ways [addTransition] can go. *)
Lemma addTransition_cases fm transition :
  (transition = None ∧ addTransition fm transition = (Panics, fm)) ∨
  (∃ t t0, transition = Some t ∧ tmap fm !! key_of t = Some t0 ∧
     addTransition fm transition =
       (Returns (Some (existed_error (Transition_From t) (Transition_Event t))),
        fm)) ∨
  (∃ t, transition = Some t ∧ tmap fm !! key_of t = None ∧
     addTransition fm transition =
       (Returns None,
        MkStateMachine (current fm) (Some (<[key_of t := t]> (tmap fm))))).
Proof.
  destruct transition as [t|]; [|by left].
  right. destruct (tmap fm !! key_of t) as [t0|] eqn:Hk.
  - left. exists t, t0. eauto using addTransition_duplicate.
  - right. exists t. eauto using addTransition_fresh.
Qed.

Lemma addTransition_current fm transition :
  current (addTransition fm transition).2 = current fm.
Proof.
  destruct (addTransition_cases fm transition)
    as [[_ ->]|[(?&?&_&_&->)|(?&_&_&->)]]; done.
Qed.

Lemma addTransition_keeps fm transition k t :
  tmap fm !! k = Some t → tmap (addTransition fm transition).2 !! k = Some t.
Proof.
  intros Hk.
  destruct (addTransition_cases fm transition)
    as [[_ ->]|[(?&?&_&_&->)|(t'&_&Hfresh&->)]]; try done.
  simpl. unfold tmap at 1. simpl.
  rewrite lookup_insert_ne; [done|]. intros <-. congruence.
Qed.

Lemma addTransition_keyed fm transition :
  keyed fm → keyed (addTransition fm transition).2.
Proof.
  intros Hfm.
  destruct (addTransition_cases fm transition)
    as [[_ ->]|[(?&?&_&_&->)|(t'&_&Hfresh&->)]]; try done.
  intros k t. unfold tmap at 1. simpl.
  rewrite lookup_insert. case_decide; [naive_solver|]. apply Hfm.
Qed.

Lemma AddTransitions_cons fm transition ts :
  AddTransitions fm (transition :: ts) =
    match addTransition fm transition with
    | (Returns None, fm') => AddTransitions fm' ts
    | (res, fm') => (res, fm')
    end.
Proof. done. Qed.

Lemma AddTransitions_current fm ts :
  current (AddTransitions fm ts).2 = current fm.
Proof.
  revert fm. induction ts as [|transition ts IH]; intros fm; [done|].
  simpl. pose proof (addTransition_current fm transition) as Hc.
  destruct (addTransition fm transition) as [[[err|]|] fm']; simpl in *;
    [done| |done].
  by rewrite IH.
Qed.

Lemma AddTransitions_keeps fm ts k t :
  tmap fm !! k = Some t → tmap (AddTransitions fm ts).2 !! k = Some t.
Proof.
  revert fm. induction ts as [|transition ts IH]; intros fm Hk; [done|].
  simpl. pose proof (addTransition_keeps fm transition k t Hk) as Hk'.
  destruct (addTransition fm transition) as [[[err|]|] fm']; simpl in *;
    [done| |done].
  by apply IH.
Qed.

Lemma AddTransitions_keyed fm ts :
  keyed fm → keyed (AddTransitions fm ts).2.
Proof.
  revert fm. induction ts as [|transition ts IH]; intros fm Hfm; [done|].
  simpl. pose proof (addTransition_keyed fm transition Hfm) as Hfm'.
  destruct (addTransition fm transition) as [[[err|]|] fm']; simpl in *;
    [done| |done].
  by apply IH.
Qed.

(** A batch whose first part goes through continues from the machine
    that part leaves. *)
Lemma AddTransitions_app fm pre post fm1 :
  AddTransitions fm pre = (Returns None, fm1) →
  AddTransitions fm (pre ++ post) = AddTransitions fm1 post.
Proof.
  revert fm. induction pre as [|transition pre IH]; intros fm Hpre; simpl in *.
  - by injection Hpre as ->.
  - destruct (addTransition fm transition) as [[[err|]|] fm']; try done.
    by apply IH.
Qed.

(** After a batch that went through, each of its transitions is in the
    table, under its own key. *)
Lemma AddTransitions_registers fm ts fm1 transition :
  AddTransitions fm ts = (Returns None, fm1) →
  transition ∈ ts →
  ∃ t, transition = Some t ∧ tmap fm1 !! key_of t = Some t.
Proof.
  revert fm. induction ts as [|tr ts IH]; intros fm Hts Hin.
  { by apply elem_of_nil in Hin. }
  simpl in Hts.
  destruct (addTransition_cases fm tr)
    as [[_ Heq]|[(?&?&_&_&Heq)|(t&->&Hfresh&Heq)]];
    rewrite Heq in Hts; try done.
  apply elem_of_cons in Hin as [->|Hin]; [|by eapply IH].
  exists t. split; [done|].
  replace fm1 with (AddTransitions
    (MkStateMachine (current fm) (Some (<[key_of t:=t]> (tmap fm)))) ts).2
    by (by rewrite Hts).
  apply AddTransitions_keeps. unfold tmap at 1. simpl.
  apply lookup_insert_eq.
Qed.

(** C5. When a transition of the batch meets its key in the table (the
    part of the batch before it went through), [AddTransitions] returns
    the error that names this [from] and [event]; the machine is the one
    left by the earlier part of the batch, so the duplicate is not
    stored and nothing after it is looked at; all that was registered
    before the call or earlier in the batch is still there.  No call
    ever replaces the transition stored under a key. *)
Theorem AddTransitions_duplicate fm pre t post fm1 t0 :
  AddTransitions fm pre = (Returns None, fm1) →
  tmap fm1 !! key_of t = Some t0 →
  AddTransitions fm (pre ++ Some t :: post) =
    (Returns (Some (errorString
       ("state, event: [" +:+ Transition_From t +:+ ", "
        +:+ Transition_Event t +:+ "] existed"))), fm1) ∧
  (∀ k t', tmap fm !! k = Some t' → tmap fm1 !! k = Some t') ∧
  (∀ transition, transition ∈ pre →
     ∃ t', transition = Some t' ∧ tmap fm1 !! key_of t' = Some t') ∧
  (∀ (fm' : StateMachine World) ts k t',
     tmap fm' !! k = Some t' →
     tmap (AddTransitions fm' ts).2 !! k = Some t').
Proof.
  intros Hpre Hdup. repeat split.
  - rewrite (AddTransitions_app _ _ _ _ Hpre), AddTransitions_cons.
    by rewrite (addTransition_duplicate _ _ _ Hdup).
  - intros k t' Hk.
    replace fm1 with (AddTransitions fm pre).2 by (by rewrite Hpre).
    by apply AddTransitions_keeps.
  - intros transition Hin. by eapply AddTransitions_registers.
  - intros fm' ts k t'. apply AddTransitions_keeps.
Qed.

End Registration.

(** Scenario B: registering [(Pending, Pay)] a second time. *)
Lemma AddTransitions_duplicate_witness :
  AddTransitions (World := nat) (NewStateMachine "Pending")
    ([transition "Pending" "Pay" "Paid" succeed] ++
     transition "Pending" "Pay" "Canceled" refuse ::
     [transition "Pending" "Cancel" "Canceled" succeed]) =
    (Returns (Some (errorString "state, event: [Pending, Pay] existed")),
     (AddTransitions (NewStateMachine "Pending")
        [transition "Pending" "Pay" "Paid" succeed]).2) ∧
  tmap (AddTransitions (World := nat) (NewStateMachine "Pending")
          [transition "Pending" "Pay" "Paid" succeed]).2
    !! EKey "Pending" "Cancel" = None.
Proof.
  split; [|reflexivity].
  apply (AddTransitions_duplicate (NewStateMachine "Pending")
           [transition "Pending" "Pay" "Paid" succeed]
           (MkTransition "Pending" "Pay" "Canceled" (Some refuse))
           [transition "Pending" "Cancel" "Canceled" succeed]
           _ (MkTransition "Pending" "Pay" "Paid" (Some succeed)));
    reflexivity.
Defined.

(** ** Where the current state comes from *)

Section Provenance.
Context {World : Type}.
Implicit Types (fm : StateMachine World) (w : World)
  (st : StateMachine World * World * list (Transition World)).

Lemma provenance_init init w : provenance init (NewStateMachine init, w, []).
Proof.
  split; [done|]. split.
  - intros k t Hk. unfold tmap in Hk. simpl in Hk.
    by rewrite lookup_empty in Hk.
  - intros t Hin. by apply elem_of_nil in Hin.
Qed.

Lemma provenance_step init st c :
  provenance init st → provenance init (step st c).
Proof.
  destruct st as [[fm w] applied]. unfold provenance.
  intros (Hcur & Hkeyed & Happlied). cbn [fst snd] in *.
  destruct c as [ts|event]; unfold step; cbn [fst snd].
  - split; [by rewrite AddTransitions_current|].
    split; [by apply AddTransitions_keyed|].
    intros t Hin. by apply AddTransitions_keeps, Happlied.
  - unfold Trigger.
    destruct (tmap fm !! EKey (current fm) event) as [trans|] eqn:Hk;
      [|done].
    destruct (Transition_Handle trans) as [handle|]; [|done].
    destruct (handle _ _ _ _) as [[err|] w']; [done|].
    cbn [fst snd current]. split; [|split].
    + rewrite fmap_app. cbn [fmap list_fmap]. by rewrite last_snoc.
    + done.
    + intros t [Hin|Hin]%elem_of_app.
      * by apply Happlied.
      * apply list_elem_of_singleton in Hin. subst t.
        change (tmap fm !! key_of trans = Some trans).
        by rewrite <-(Hkeyed _ _ Hk).
Qed.

Lemma provenance_run init w calls : provenance init (run init w calls).
Proof.
  unfold run. generalize (provenance_init init w).
  generalize (NewStateMachine (World:=World) init, w, @nil (Transition World)).
  induction calls as [|c calls IH]; intros st Hst; [done|].
  simpl. by apply IH, provenance_step.
Qed.

(** C2. After any sequence of [AddTransitions] and [Trigger] calls on a
    new machine, the current state is the state given at construction or
    the [To] of a transition that an earlier [Trigger] found in the
    table and applied with success: it is the [To] of the last such
    transition, and that transition is still registered under its
    [(From, Event)]. *)
Theorem current_state_provenance (init : State) w (calls : list (call World)) :
  let fm := (run init w calls).1.1 in
  let applied := (run init w calls).2 in
  (CurrentState fm = init ∨
   ∃ t, t ∈ applied ∧ tmap fm !! key_of t = Some t ∧
        CurrentState fm = Transition_To t) ∧
  CurrentState fm = default init (last (Transition_To <$> applied)).
Proof.
  destruct (provenance_run init w calls) as (Hcur & _ & Happlied).
  cbv zeta. unfold CurrentState. split; [|done].
  rewrite Hcur, fmap_last.
  destruct (last (run init w calls).2) as [t|] eqn:Hlast; [|by left].
  right. exists t. apply last_Some_elem_of in Hlast. auto.
Qed.

End Provenance.

(** ** Strings and the orders of the renderer *)

Lemma append_assoc (a b c : string) : (a +:+ b) +:+ c = a +:+ b +:+ c.
Proof.
  induction a as [|x a IH]; [done|].
  change (String x ((a +:+ b) +:+ c) = String x (a +:+ b +:+ c)).
  by f_equal.
Qed.

Lemma append_empty_r (a : string) : a +:+ EmptyString = a.
Proof.
  induction a as [|x a IH]; [done|].
  change (String x (a +:+ EmptyString) = String x a).
  by f_equal.
Qed.

Lemma join_lines_app (ls ls' : list string) :
  join_lines (ls ++ ls') = join_lines ls +:+ join_lines ls'.
Proof.
  induction ls as [|l ls IH]; [done|].
  change (l +:+ nl +:+ join_lines (ls ++ ls') =
          (l +:+ nl +:+ join_lines ls) +:+ join_lines ls').
  by rewrite IH, !append_assoc.
Qed.

Lemma in_order_ltb (a b : string) : in_order String.ltb a b ↔ String.le a b.
Proof.
  unfold in_order, String.le, String.ltb, String.leb.
  rewrite (String.compare_antisym a b).
  destruct (b ?= a)%string; simpl; naive_solver.
Qed.

Lemma string_lt_le (a b : string) : string_lt a b ↔ String.le a b ∧ a ≠ b.
Proof.
  unfold string_lt, String.le, String.ltb, String.leb. split.
  - destruct (a ?= b)%string eqn:Hc; try done.
    split; [done|]. intros ->.
    pose proof (String.compare_antisym b b) as Hb. rewrite Hc in Hb. done.
  - intros [Hle Hne]. destruct (a ?= b)%string eqn:Hc; try done.
    by apply String.compare_eq_iff in Hc.
Qed.

Lemma in_order_less (a b : eKey) :
  in_order less a b ↔
  if decide (eKey_From a = eKey_From b)
  then String.le (eKey_Event a) (eKey_Event b)
  else String.le (eKey_From a) (eKey_From b).
Proof.
  unfold in_order, less.
  destruct (decide (eKey_From b = eKey_From a)) as [Heq|Hne].
  - rewrite decide_True by done. apply in_order_ltb.
  - rewrite decide_False by done. apply in_order_ltb.
Qed.

Lemma key_lt_in_order (a b : eKey) : key_lt a b ↔ in_order less a b ∧ a ≠ b.
Proof.
  rewrite in_order_less. unfold key_lt, less.
  destruct a as [fa ea], b as [fb eb]; simpl.
  destruct (decide (fa = fb)) as [Hf|Hf];
    fold (string_lt ea eb); fold (string_lt fa fb);
    rewrite string_lt_le; intuition congruence.
Qed.

Global Instance in_order_ltb_total : Total (in_order String.ltb).
Proof. intros a b. rewrite !in_order_ltb. apply (total String.le). Qed.

Global Instance in_order_ltb_trans : Transitive (in_order String.ltb).
Proof. intros a b c. rewrite !in_order_ltb. apply transitivity. Qed.

Global Instance in_order_ltb_antisymm : AntiSymm (=) (in_order String.ltb).
Proof. intros a b. rewrite !in_order_ltb. apply (anti_symm String.le). Qed.

Global Instance in_order_less_total : Total (in_order less).
Proof.
  intros a b. rewrite !in_order_less.
  destruct (total String.le (eKey_Event a) (eKey_Event b)),
    (total String.le (eKey_From a) (eKey_From b));
    repeat case_decide; naive_solver.
Qed.

Global Instance in_order_less_trans : Transitive (in_order less).
Proof.
  intros a b c. rewrite !in_order_less.
  destruct a as [fa ea], b as [fb eb], c as [fc ec]; simpl.
  repeat case_decide; subst; intros Hab Hbc; try done.
  - by trans eb.
  - exfalso. by pose proof (anti_symm String.le _ _ Hab Hbc).
  - by trans fb.
Qed.

Global Instance in_order_less_antisymm : AntiSymm (=) (in_order less).
Proof.
  intros a b. rewrite !in_order_less.
  destruct a as [fa ea], b as [fb eb]; simpl.
  repeat case_decide; subst; intros Hab Hba; try done.
  - f_equal. by apply (anti_symm String.le).
  - exfalso. by pose proof (anti_symm String.le _ _ Hab Hba).
Qed.

Section Sorting.
Context {A : Type} (less : A → A → bool).
Context `{!Total (in_order less), !Transitive (in_order less),
          !AntiSymm (=) (in_order less)}.

Lemma sort_Slice_Permutation (s : list A) : sort_Slice less s ≡ₚ s.
Proof. apply merge_sort_Permutation. Qed.

Lemma sort_Slice_Sorted (s : list A) :
  Sorted (in_order less) (sort_Slice less s).
Proof. apply (Sorted_merge_sort _). Qed.

(** What Go promises of [sort.Slice] leaves one result only: any
    rearrangement of the slice that is in order is the one [sort_Slice]
    computes. *)
Lemma sort_Slice_unique (s s' : list A) :
  s' ≡ₚ s → Sorted (in_order less) s' → s' = sort_Slice less s.
Proof.
  intros Hperm Hsorted. apply (Sorted_unique (in_order less)); [done| |].
  - apply sort_Slice_Sorted.
  - by rewrite sort_Slice_Permutation.
Qed.

Lemma sort_Slice_order_irrelevant (s s' : list A) :
  s ≡ₚ s' → sort_Slice less s = sort_Slice less s'.
Proof.
  intros Hperm. apply sort_Slice_unique.
  - by rewrite sort_Slice_Permutation.
  - apply sort_Slice_Sorted.
Qed.

Lemma StronglySorted_strict (l : list A) :
  NoDup l → StronglySorted (in_order less) l →
  StronglySorted (λ a b, in_order less a b ∧ a ≠ b) l.
Proof.
  intros Hnd Hs. induction Hs as [|x l Hs IH Hx]; [constructor|].
  apply NoDup_cons in Hnd as [Hx' Hnd]. constructor; [by apply IH|].
  rewrite Forall_forall in Hx |- *. intros y Hy. split; [by apply Hx|].
  intros ->. done.
Qed.

Lemma sort_Slice_strict (s : list A) :
  NoDup s →
  StronglySorted (λ a b, in_order less a b ∧ a ≠ b) (sort_Slice less s).
Proof.
  intros Hnd. apply StronglySorted_strict.
  - by rewrite sort_Slice_Permutation.
  - apply Sorted_StronglySorted; [done|]. apply sort_Slice_Sorted.
Qed.

End Sorting.

Lemma StronglySorted_impl {A} (R R' : relation A) (l : list A) :
  (∀ a b, R a b → R' a b) → StronglySorted R l → StronglySorted R' l.
Proof.
  intros HR Hs. induction Hs as [|x l Hs IH Hx]; constructor; [done|].
  eapply Forall_impl; [done|]. intros y. apply HR.
Qed.

(** ** The sorted keys and states of the renderer *)

Section RendererLists.
Context {World : Type}.
Implicit Types (r : ranging World) (m : gmap eKey (Transition World))
  (l : list (eKey * Transition World)) (ids : gmap string string).

Lemma sorted_keys_Permutation r m :
  faithful r → getSortedTransitionKeys r m ≡ₚ (map_to_list m).*1.
Proof.
  intros (Hkeys & _ & _). unfold getSortedTransitionKeys.
  by rewrite sort_Slice_Permutation, Hkeys.
Qed.

Lemma sorted_keys_order_irrelevant r r' m :
  faithful r → faithful r' →
  getSortedTransitionKeys r m = getSortedTransitionKeys r' m.
Proof.
  intros (Hkeys & _ & _) (Hkeys' & _ & _). unfold getSortedTransitionKeys.
  apply (sort_Slice_order_irrelevant less). by rewrite Hkeys, Hkeys'.
Qed.

Lemma sorted_keys_sorted r m :
  faithful r → StronglySorted key_lt (getSortedTransitionKeys r m).
Proof.
  intros (Hkeys & _ & _). unfold getSortedTransitionKeys.
  eapply StronglySorted_impl; [|apply (sort_Slice_strict less)].
  - intros a b. by rewrite key_lt_in_order.
  - rewrite Hkeys. apply NoDup_fst_map_to_list.
Qed.

Lemma elem_of_sorted_keys r m k :
  faithful r → k ∈ getSortedTransitionKeys r m ↔ is_Some (m !! k).
Proof.
  intros Hr. rewrite (sorted_keys_Permutation r m Hr).
  rewrite list_elem_of_fmap. split.
  - intros ([k' t] & -> & Hin). apply elem_of_map_to_list in Hin. by exists t.
  - intros [t Ht]. exists (k, t). by rewrite elem_of_map_to_list.
Qed.

Lemma mark_lookup (s s' : string) ids :
  mark s ids !! s' =
    match ids !! s' with
    | Some v => Some v
    | None => if decide (s' = s) then Some EmptyString else None
    end.
Proof.
  unfold mark. destruct (decide (s' = s)) as [->|Hne].
  - destruct (ids !! s) as [v|] eqn:Hs; [by rewrite Hs|].
    by rewrite lookup_insert_eq.
  - destruct (ids !! s) as [v|] eqn:Hs.
    + by destruct (ids !! s').
    + rewrite lookup_insert_ne by done. by destruct (ids !! s').
Qed.

Lemma mark_entries_lookup l ids (s : string) :
  foldl mark_entry ids l !! s =
    match ids !! s with
    | Some v => Some v
    | None => if decide (s ∈ states_of l) then Some EmptyString else None
    end.
Proof.
  revert ids. induction l as [|[k t] l IH]; intros ids.
  { simpl. by destruct (ids !! s). }
  cbn [foldl]. rewrite IH. unfold mark_entry, states_of.
  rewrite !mark_lookup. cbn [fst snd mbind list_bind app].
  destruct (ids !! s) as [v|]; [done|].
  fold (states_of l).
  destruct (decide (s = eKey_From k)) as [->|Hfrom].
  { rewrite decide_True; [done|]. by left. }
  destruct (decide (s = Transition_To t)) as [->|Hto].
  { rewrite decide_True; [done|]. right. by left. }
  destruct (decide (s ∈ states_of l)) as [Hin|Hin].
  - rewrite decide_True; [done|]. by do 2 right.
  - rewrite decide_False; [done|].
    intros [?|[?|?]%elem_of_cons]%elem_of_cons; done.
Qed.

Lemma mark_entries_order_irrelevant l l' :
  l ≡ₚ l' → foldl mark_entry ∅ l = foldl mark_entry ∅ l'.
Proof.
  intros Hperm. apply map_eq. intros s. rewrite !mark_entries_lookup.
  rewrite lookup_empty.
  assert (Hiff : s ∈ states_of l ↔ s ∈ states_of l').
  { unfold states_of. by rewrite Hperm. }
  destruct (decide (s ∈ states_of l)), (decide (s ∈ states_of l'));
    try done; exfalso; tauto.
Qed.

Lemma elem_of_states_of m (s : string) :
  s ∈ states_of (map_to_list m) ↔ is_state m s.
Proof.
  unfold states_of, is_state. rewrite list_elem_of_bind. split.
  - intros ([k t] & Hs & Hin). apply elem_of_map_to_list in Hin.
    exists k, t. split; [done|]. simpl in Hs.
    apply elem_of_cons in Hs as [->|Hs]; [by left|].
    apply list_elem_of_singleton in Hs. by right.
  - intros (k & t & Hk & Hs). exists (k, t). rewrite elem_of_map_to_list.
    split; [|done]. simpl. destruct Hs as [->| ->].
    + by left.
    + right. by left.
Qed.

(** The map of state names that the first loop of [getSortedStates]
    builds, whatever the order of the loop. *)
Lemma statesToIDMap_lookup r m (s : string) :
  faithful r →
  foldl mark_entry ∅ (range_targets r m) !! s =
    if decide (s ∈ states_of (map_to_list m)) then Some EmptyString else None.
Proof.
  intros (_ & Htargets & _).
  rewrite (mark_entries_order_irrelevant _ _ (Htargets m)).
  by rewrite mark_entries_lookup, lookup_empty.
Qed.

Lemma sorted_states_order_irrelevant r r' m :
  faithful r → faithful r' → getSortedStates r m = getSortedStates r' m.
Proof.
  intros Hr Hr'. unfold getSortedStates.
  assert (Hmap : foldl mark_entry ∅ (range_targets r m) =
                 foldl mark_entry ∅ (range_targets r' m)).
  { destruct Hr as (_ & Ht & _), Hr' as (_ & Ht' & _).
    apply mark_entries_order_irrelevant. by rewrite Ht, Ht'. }
  rewrite Hmap.
  assert (Hsort :
    sort_Strings (range_states r (foldl mark_entry ∅ (range_targets r' m))).*1 =
    sort_Strings (range_states r' (foldl mark_entry ∅ (range_targets r' m))).*1).
  { destruct Hr as (_ & _ & Hs), Hr' as (_ & _ & Hs').
    apply (sort_Slice_order_irrelevant String.ltb). by rewrite Hs, Hs'. }
  by rewrite Hsort.
Qed.

Lemma sorted_states_Permutation r m :
  faithful r →
  (getSortedStates r m).1 ≡ₚ
    (map_to_list (foldl mark_entry ∅ (range_targets r m))).*1.
Proof.
  intros (_ & _ & Hs). unfold getSortedStates. cbn [fst].
  unfold sort_Strings. by rewrite sort_Slice_Permutation, Hs.
Qed.

Lemma elem_of_sorted_states r m (s : string) :
  faithful r → s ∈ (getSortedStates r m).1 ↔ is_state m s.
Proof.
  intros Hr. rewrite (sorted_states_Permutation r m Hr).
  rewrite <-elem_of_states_of, list_elem_of_fmap. split.
  - intros ([s' v] & -> & Hin). apply elem_of_map_to_list in Hin.
    rewrite (statesToIDMap_lookup r m _ Hr) in Hin. by case_decide.
  - intros Hin. exists (s, EmptyString). split; [done|].
    apply elem_of_map_to_list. rewrite (statesToIDMap_lookup r m _ Hr).
    by rewrite decide_True.
Qed.

Lemma sorted_states_sorted r m :
  faithful r → StronglySorted string_lt (getSortedStates r m).1.
Proof.
  intros (_ & _ & Hs). unfold getSortedStates. cbn [fst].
  eapply StronglySorted_impl; [|apply (sort_Slice_strict String.ltb)].
  - intros a b. by rewrite string_lt_le, in_order_ltb.
  - rewrite Hs. apply NoDup_fst_map_to_list.
Qed.

End RendererLists.

(** ** The identifiers and the texts of the renderer *)

Lemma position_None (s : string) (states : list string) :
  s ∉ states → position s states = None.
Proof.
  induction states as [|x rest IH]; [done|].
  intros [Hne Hrest]%not_elem_of_cons. simpl.
  rewrite decide_False by done. by rewrite IH.
Qed.

Lemma assign_ids_id_of (states : list string) (i0 : nat)
    (ids : gmap string string) (s : string) :
  NoDup states →
  id_of (assign_ids i0 states ids) s =
    match position s states with
    | Some i => "id" +:+ pretty (i0 + i)
    | None => id_of ids s
    end.
Proof.
  intros Hnd. revert i0 ids.
  induction Hnd as [|x rest Hx Hnd IH]; intros i0 ids; [done|].
  cbn [assign_ids position]. rewrite IH.
  destruct (decide (x = s)) as [->|Hne].
  - rewrite (position_None _ _ Hx). unfold id_of.
    by rewrite lookup_insert_eq, Nat.add_0_r.
  - destruct (position s rest) as [i|]; simpl.
    + by rewrite Nat.add_succ_r.
    + unfold id_of. by rewrite lookup_insert_ne.
Qed.

Lemma write_lines_Some {A B} (line : A → option string) (g : B → A)
    (f : B → string) (es : list B) (buf : string) :
  (∀ e, e ∈ es → line (g e) = Some (f e)) →
  write_lines line (g <$> es) buf = Some (buf +:+ join_lines (f <$> es)).
Proof.
  revert buf. induction es as [|e es IH]; intros buf Hline.
  { simpl. by rewrite append_empty_r. }
  cbn [fmap list_fmap write_lines]. rewrite Hline by left. cbn [mbind option_bind].
  rewrite IH by (intros e' He'; apply Hline; by right).
  change (join_lines (f e :: list_fmap B string f es))
    with (f e +:+ nl +:+ join_lines (f <$> es)).
  by rewrite !append_assoc.
Qed.

Lemma write_lines_pure (fmt : string → string) (xs : list string)
    (buf : string) :
  write_lines (λ x, Some (fmt x)) xs buf = Some (buf +:+ join_lines (fmt <$> xs)).
Proof.
  rewrite <-(list_fmap_id xs) at 1.
  by apply (write_lines_Some (λ x, Some (fmt x)) id fmt).
Qed.

Lemma write_lines_lookup {V} (m : gmap eKey V) (fmt : eKey → V → string)
    (es : list (eKey * V)) (buf : string) :
  (∀ e, e ∈ es → m !! e.1 = Some e.2) →
  write_lines (λ k, v ← m !! k; Some (fmt k v)) es.*1 buf =
    Some (buf +:+ join_lines ((λ e, fmt e.1 e.2) <$> es)).
Proof.
  intros Hlook.
  apply (write_lines_Some (λ k, v ← m !! k; Some (fmt k v)) fst
           (λ e, fmt e.1 e.2)).
  intros e He. by rewrite (Hlook e He).
Qed.

Lemma join_lines_cons (l : string) (ls : list string) :
  join_lines (l :: ls) = l +:+ nl +:+ join_lines ls.
Proof. done. Qed.

Section RendererTexts.
Context {World : Type}.
Implicit Types (r : ranging World) (fm : StateMachine World)
  (m : gmap eKey (Transition World)).

Lemma sorted_ids_synthetic r m (s : string) :
  faithful r →
  id_of (getSortedStates r m).2 s = synthetic_id (getSortedStates r m).1 s.
Proof.
  intros Hr.
  pose proof (sorted_states_Permutation r m Hr) as Hperm.
  pose proof (elem_of_sorted_states r m s Hr) as Hin.
  revert Hperm Hin. unfold getSortedStates. cbn [fst snd].
  set (states := sort_Strings _). intros Hperm Hin.
  rewrite assign_ids_id_of.
  2:{ rewrite Hperm. apply NoDup_fst_map_to_list. }
  unfold synthetic_id.
  destruct (position s states) as [i|] eqn:Hpos; [done|].
  unfold id_of. rewrite (statesToIDMap_lookup r m s Hr).
  case_decide as Hs; [|done].
  apply elem_of_states_of, Hin in Hs.
  clear -Hs Hpos. exfalso. induction states as [|x rest IH].
  { by apply elem_of_nil in Hs. }
  simpl in Hpos. case_decide; [done|].
  apply elem_of_cons in Hs as [->|Hs]; [done|].
  destruct (position s rest); [done|]. by apply IH.
Qed.

(** The entries of the table in the order of the sorted keys. *)
Lemma sorted_entries r m :
  faithful r →
  ∃ es, es.*1 = getSortedTransitionKeys r m ∧ es ≡ₚ map_to_list m ∧
        StronglySorted key_lt es.*1.
Proof.
  intros Hr.
  destruct (Permutation_map_inv fst (map_to_list m)
              (sorted_keys_Permutation r m Hr)) as (es & Hes & Hperm).
  exists es. split; [done|]. split; [done|].
  change (es.*1) with (map fst es). rewrite <-Hes.
  by apply sorted_keys_sorted.
Qed.

(** [View] writes the three texts of the specification, from the
    entries sorted by key and the state names sorted; it never panics. *)
Lemma View_renders r fm :
  faithful r →
  ∃ es states,
    es ≡ₚ map_to_list (tmap fm) ∧ StronglySorted key_lt es.*1 ∧
    (∀ s, s ∈ states ↔ is_state (tmap fm) s) ∧
    StronglySorted string_lt states ∧
    View r fm = Some (render_graphviz (current fm) es states,
                      render_flowchart (current fm) es states,
                      render_diagram (current fm) es).
Proof.
  intros Hr.
  destruct (sorted_entries r (tmap fm) Hr) as (es & Hes & Hperm & Hsorted).
  exists es, (getSortedStates r (tmap fm)).1.
  split; [done|]. split; [done|].
  split; [intros s; by apply elem_of_sorted_states|].
  split; [by apply sorted_states_sorted|].
  assert (Hlook : ∀ e, e ∈ es → tmap fm !! e.1 = Some e.2).
  { intros [k t] He. rewrite Hperm in He. by apply elem_of_map_to_list. }
  unfold View. rewrite <-Hes.
  set (states := (getSortedStates r (tmap fm)).1).
  set (ids := (getSortedStates r (tmap fm)).2).
  repeat first
    [ rewrite write_lines_pure
    | rewrite (write_lines_lookup _ _ _ _ Hlook)
    | progress cbn [mbind option_bind] ].
  assert (Hids : ∀ s, id_of ids s = synthetic_id states s).
  { intros s. by apply sorted_ids_synthetic. }
  f_equal. f_equal; [f_equal|].
  - unfold render_graphviz.
    rewrite !join_lines_app, !join_lines_cons, !append_assoc.
    reflexivity.
  - unfold render_flowchart.
    rewrite !join_lines_app, !join_lines_cons, !append_assoc.
    rewrite (list_fmap_ext (flowchart_node (synthetic_id states))
               (flowchart_node (id_of ids)) states).
    2:{ intros _ s _. unfold flowchart_node. by rewrite Hids. }
    rewrite (list_fmap_ext (flowchart_edge (synthetic_id states))
               (flowchart_edge (id_of ids)) es).
    2:{ intros _ e _. unfold flowchart_edge. by rewrite !Hids. }
    rewrite <-Hids. reflexivity.
  - unfold render_diagram.
    rewrite !join_lines_app, !join_lines_cons, !append_assoc.
    reflexivity.
Qed.

End RendererTexts.

(** ** The order of registration does not show in the table *)

Section RegistrationOrder.
Context {World : Type}.
Implicit Types (fm : StateMachine World) (t : Transition World)
  (l : list (Transition World)) (ts : list (option (Transition World))).

Lemma tmap_insert fm t :
  tmap (MkStateMachine (current fm) (Some (<[key_of t := t]> (tmap fm))))
  = <[key_of t := t]> (tmap fm).
Proof. done. Qed.

(** A batch goes through exactly when it has no [nil], no key twice and
    no key of the table; the table then holds what it held and the
    batch. *)
Lemma AddTransitions_success fm ts fm' :
  AddTransitions fm ts = (Returns None, fm') →
  ∃ l, ts = Some <$> l ∧ NoDup (key_of <$> l) ∧
       (∀ t, t ∈ l → tmap fm !! key_of t = None) ∧
       (∀ k t, tmap fm' !! k = Some t ↔
               tmap fm !! k = Some t ∨ (t ∈ l ∧ key_of t = k)).
Proof.
  revert fm. induction ts as [|tr ts IH]; intros fm Hts.
  { injection Hts as <-. exists []. split; [done|]. split; [constructor|].
    split; [by intros t ?%elem_of_nil|].
    intros k t. split; [by left|]. by intros [?|[?%elem_of_nil _]]. }
  rewrite AddTransitions_cons in Hts.
  destruct (addTransition_cases fm tr)
    as [[_ Heq]|[(?&?&_&_&Heq)|(t&->&Hfresh&Heq)]];
    rewrite Heq in Hts; try done.
  apply IH in Hts as (l & -> & Hnd & Hl & Hchar).
  rewrite tmap_insert in Hl, Hchar.
  assert (Hne : ∀ t', t' ∈ l → key_of t ≠ key_of t').
  { intros t' Hin Heq'. specialize (Hl t' Hin).
    by rewrite <-Heq', lookup_insert_eq in Hl. }
  exists (t :: l). split; [done|]. split; [|split].
  - rewrite fmap_cons. apply NoDup_cons. split; [|done].
    intros (t' & Heq' & Hin)%list_elem_of_fmap. by apply (Hne t').
  - intros t' [->|Hin]%elem_of_cons; [done|].
    specialize (Hl t' Hin). by rewrite lookup_insert_ne in Hl by auto.
  - intros k t'. rewrite Hchar, lookup_insert_Some, elem_of_cons. split.
    + intros [[[<- <-]| [_ Hk]] | [Hin <-]]; auto.
    + intros [Hk | [[->|Hin] <-]]; auto.
      left. right. split; [|done]. intros <-. congruence.
Qed.

Lemma AddTransitions_succeeds fm l :
  NoDup (key_of <$> l) →
  (∀ t, t ∈ l → tmap fm !! key_of t = None) →
  (AddTransitions fm (Some <$> l)).1 = Returns None.
Proof.
  revert fm. induction l as [|t l IH]; intros fm Hnd Hl; [done|].
  rewrite fmap_cons in Hnd. apply NoDup_cons in Hnd as [Ht Hnd].
  rewrite fmap_cons, AddTransitions_cons.
  rewrite addTransition_fresh by (apply Hl; by left).
  apply IH; [done|]. intros t' Hin. rewrite tmap_insert.
  rewrite lookup_insert_ne.
  - apply Hl. by right.
  - intros Heq. apply Ht. rewrite Heq. by apply list_elem_of_fmap_2.
Qed.

Lemma AddTransitions_order_irrelevant fm ts ts' :
  ts ≡ₚ ts' →
  (AddTransitions fm ts).1 = Returns None →
  (AddTransitions fm ts').1 = Returns None ∧
  tmap (AddTransitions fm ts).2 = tmap (AddTransitions fm ts').2 ∧
  current (AddTransitions fm ts).2 = current (AddTransitions fm ts').2.
Proof.
  intros Hperm Hok.
  destruct (AddTransitions fm ts) as [res fm1] eqn:Hts.
  simpl in Hok. subst res.
  destruct (AddTransitions_success _ _ _ Hts) as (l & -> & Hnd & Hl & Hchar).
  symmetry in Hperm.
  apply Permutation_map_inv in Hperm as (l' & -> & Hperm).
  change (map Some l') with (Some <$> l').
  assert (Hok' : (AddTransitions fm (Some <$> l')).1 = Returns None).
  { apply AddTransitions_succeeds.
    - by rewrite <-Hperm.
    - intros t Hin. apply Hl. by rewrite Hperm. }
  split; [done|].
  pose proof (AddTransitions_current fm (Some <$> l')) as Hcur'.
  pose proof (AddTransitions_current fm (Some <$> l)) as Hcur.
  rewrite Hts in Hcur.
  destruct (AddTransitions fm (Some <$> l')) as [res fm2] eqn:Hts'.
  simpl in Hok'. subst res.
  destruct (AddTransitions_success _ _ _ Hts')
    as (l'' & Heq & _ & _ & Hchar').
  apply (inj (fmap Some)) in Heq. subst l''.
  split; [|simpl in *; congruence].
  apply map_eq. intros k. apply option_eq. intros t.
  cbn [snd]. rewrite Hchar, Hchar'. by setoid_rewrite Hperm.
Qed.

End RegistrationOrder.

(** ** The renderer *)

Section RendererProperties.
Context {World : Type}.
Implicit Types (r : ranging World) (fm : StateMachine World).

Lemma faithful_forward : faithful (World := World) forward_ranging.
Proof. by repeat split. Qed.

Lemma faithful_backward : faithful (World := World) backward_ranging.
Proof. repeat split; intros m; apply reverse_Permutation. Qed.

Lemma View_order_irrelevant r r' fm fm' :
  faithful r → faithful r' →
  tmap fm = tmap fm' → current fm = current fm' →
  View r fm = View r' fm'.
Proof.
  intros Hr Hr' Htmap Hcur. unfold View. rewrite <-Htmap, <-Hcur.
  rewrite (sorted_keys_order_irrelevant r r' (tmap fm) Hr Hr').
  by rewrite (sorted_states_order_irrelevant r r' (tmap fm) Hr Hr').
Qed.

(** C7. The renderer gives the same three texts each time it runs on a
    table, whatever order Go's map iteration takes, and the same texts
    for two tables with the same transitions and current state, in
    whatever order the transitions were registered.  The texts are those
    of the specification for the entries sorted by [(from, event)] and
    the state names sorted, both byte-wise. *)
Theorem View_deterministic r r' fm fm' :
  faithful r → faithful r' →
  tmap fm = tmap fm' → current fm = current fm' →
  View r fm = View r' fm' ∧
  (∃ es states,
     es ≡ₚ map_to_list (tmap fm) ∧ StronglySorted key_lt es.*1 ∧
     (∀ s, s ∈ states ↔ is_state (tmap fm) s) ∧
     StronglySorted string_lt states ∧
     View r fm = Some (render_graphviz (current fm) es states,
                       render_flowchart (current fm) es states,
                       render_diagram (current fm) es)) ∧
  (∀ (fm0 : StateMachine World) ts ts',
     ts ≡ₚ ts' →
     (AddTransitions fm0 ts).1 = Returns None →
     (AddTransitions fm0 ts').1 = Returns None ∧
     View r (AddTransitions fm0 ts).2 = View r' (AddTransitions fm0 ts').2).
Proof.
  intros Hr Hr' Htmap Hcur. split; [by apply View_order_irrelevant|].
  split; [by apply View_renders|].
  intros fm0 ts ts' Hperm Hok.
  destruct (AddTransitions_order_irrelevant fm0 ts ts' Hperm Hok)
    as (Hok' & Htmap' & Hcur').
  split; [done|]. by apply View_order_irrelevant.
Qed.

(** C9, as amended.  For a table without transitions the renderer
    returns, without panic, a graph description made of header, an empty
    line and footer; a flow chart made of the header, two empty lines
    and the highlight directive, whose identifier is empty; and a state
    diagram made of the header and the edge from the start marker to
    the current state. *)
Theorem View_empty r fm :
  faithful r → tmap fm = ∅ →
  View r fm =
    Some (join_lines ["digraph fsm {"; EmptyString; "}"],
          join_lines ["graph LR"; EmptyString; EmptyString;
                      "    style  fill:#00AA00"],
          join_lines ["stateDiagram"; "    [*] --> " +:+ current fm]).
Proof.
  intros Hr Hempty.
  destruct (View_renders r fm Hr) as (es & states & Hes & _ & Hstates & _ & ->).
  rewrite Hempty, map_to_list_empty in Hes. apply Permutation_nil_r in Hes.
  assert (states = []) as ->.
  { destruct states as [|s states]; [done|].
    destruct (proj1 (Hstates s)) as (k & t & Hk & _); [by left|].
    by rewrite Hempty, lookup_empty in Hk. }
  by subst es.
Qed.

Lemma View_diagram_shape r fm :
  faithful r →
  ∃ es graphViz flowChart,
    es ≡ₚ map_to_list (tmap fm) ∧ StronglySorted key_lt es.*1 ∧
    length es = size (tmap fm) ∧
    View r fm =
      Some (graphViz, flowChart,
            join_lines (["stateDiagram"; "    [*] --> " +:+ current fm]
                        ++ ((λ e, "    " +:+ eKey_From e.1 +:+ " --> "
                                  +:+ Transition_To e.2 +:+ ": "
                                  +:+ eKey_Event e.1) <$> es))).
Proof.
  intros Hr.
  destruct (View_renders r fm Hr) as (es & states & Hes & Hsorted & _ & _ & Hview).
  exists es, (render_graphviz (current fm) es states),
    (render_flowchart (current fm) es states).
  split; [done|]. split; [done|]. split; [|done].
  by rewrite Hes, length_map_to_list.
Qed.

End RendererProperties.

(** C8, as amended.  The state diagram is the header line [stateDiagram],
    then the edge from the start marker to the state that is current when
    the renderer runs, then one line [from --> to: event] for each
    registered transition, in the order of the keys [(from, event)]; every
    line after the header is indented by four spaces.  For the cycle of
    scenario D the text has the header, the start edge and three
    transition lines, and after [Trigger(e1)] the start edge points to
    [B]. *)
Theorem View_diagram :
  (∀ World (r : ranging World) (fm : StateMachine World),
     faithful r →
     ∃ es graphViz flowChart,
       es ≡ₚ map_to_list (tmap fm) ∧ StronglySorted key_lt es.*1 ∧
       length es = size (tmap fm) ∧
       View r fm =
         Some (graphViz, flowChart,
               join_lines (["stateDiagram"; "    [*] --> " +:+ current fm]
                           ++ ((λ e, "    " +:+ eKey_From e.1 +:+ " --> "
                                     +:+ Transition_To e.2 +:+ ": "
                                     +:+ eKey_Event e.1) <$> es)))) ∧
  (∀ r : ranging nat,
     faithful r →
     snd <$> View r scenarioD =
       Some (join_lines ["stateDiagram"; "    [*] --> A"; "    A --> B: e1";
                         "    B --> C: e2"; "    C --> A: e3"]) ∧
     snd <$> View r (Trigger scenarioD "e1" 0).1.2 =
       Some (join_lines ["stateDiagram"; "    [*] --> B"; "    A --> B: e1";
                         "    B --> C: e2"; "    C --> A: e3"])).
Proof.
  split; [intros World r fm; apply View_diagram_shape|].
  intros r Hr. split.
  - rewrite (View_order_irrelevant r forward_ranging scenarioD scenarioD Hr
               faithful_forward eq_refl eq_refl).
    vm_compute; reflexivity.
  - rewrite (View_order_irrelevant r forward_ranging _ _ Hr
               faithful_forward eq_refl eq_refl).
    vm_compute; reflexivity.
Qed.

Lemma View_diagram_witness :
  (∃ es graphViz flowChart,
     es ≡ₚ map_to_list (tmap scenarioD_reordered) ∧
     StronglySorted key_lt es.*1 ∧
     length es = size (tmap scenarioD_reordered) ∧
     View backward_ranging scenarioD_reordered =
       Some (graphViz, flowChart,
             join_lines (["stateDiagram";
                          "    [*] --> " +:+ current scenarioD_reordered]
                         ++ ((λ e, "    " +:+ eKey_From e.1 +:+ " --> "
                                   +:+ Transition_To e.2 +:+ ": "
                                   +:+ eKey_Event e.1) <$> es)))) ∧
  (snd <$> View backward_ranging scenarioD =
     Some (join_lines ["stateDiagram"; "    [*] --> A"; "    A --> B: e1";
                       "    B --> C: e2"; "    C --> A: e3"]) ∧
   snd <$> View backward_ranging (Trigger scenarioD "e1" 0).1.2 =
     Some (join_lines ["stateDiagram"; "    [*] --> B"; "    A --> B: e1";
                       "    B --> C: e2"; "    C --> A: e3"])).
Proof.
  split.
  - exact (proj1 View_diagram nat backward_ranging scenarioD_reordered
             faithful_backward).
  - exact (proj2 View_diagram backward_ranging faithful_backward).
Defined.

(** C8 as the specification states it fails on the cycle of scenario D:
    the first line of the state diagram is the header, not the edge from
    the start marker. *)
Lemma View_diagram_first_line :
  ∃ graphViz flowChart diagram,
    View forward_ranging scenarioD = Some (graphViz, flowChart, diagram) ∧
    head (lines diagram) = Some "stateDiagram" ∧
    head (lines diagram) ≠ Some ("[*] --> " +:+ CurrentState scenarioD).
Proof.
  do 3 eexists. split; [vm_compute; reflexivity|].
  split; vm_compute; done.
Qed.

Lemma View_deterministic_witness :
  View forward_ranging scenarioD = View backward_ranging scenarioD_reordered.
Proof.
  refine (proj1 (View_deterministic forward_ranging backward_ranging
                   scenarioD scenarioD_reordered
                   faithful_forward faithful_backward _ _));
    reflexivity.
Defined.

Lemma View_empty_witness :
  View forward_ranging (NewStateMachine (World := nat) "Pending") =
    Some (join_lines ["digraph fsm {"; EmptyString; "}"],
          join_lines ["graph LR"; EmptyString; EmptyString;
                      "    style  fill:#00AA00"],
          join_lines ["stateDiagram"; "    [*] --> Pending"]).
Proof.
  apply (View_empty forward_ranging (NewStateMachine "Pending")
           faithful_forward).
  reflexivity.
Defined.

(** C9 as the specification states it fails on a new machine: the flow
    chart holds a highlight directive and the state diagram holds an edge,
    so these two texts are more than headers and footers. *)
Lemma View_empty_not_bare :
  ∃ graphViz flowChart diagram,
    View forward_ranging (NewStateMachine (World := nat) "A") =
      Some (graphViz, flowChart, diagram) ∧
    lines flowChart = ["graph LR"; EmptyString; EmptyString;
                       "    style  fill:#00AA00"] ∧
    lines diagram = ["stateDiagram"; "    [*] --> A"].
Proof.
  do 3 eexists. split; [vm_compute; reflexivity|].
  split; vm_compute; done.
Qed.

(** ** The mutex *)

Section MutexDiscipline.
Context {World : Type}.
Implicit Types (fm : StateMachine World)
  (ts : list (option (Transition World))).

Lemma guarded_from_fields (tr rest : list Locking.access) :
  forallb Locking.is_field tr = true →
  Locking.guarded_from true (tr ++ rest) = Locking.guarded_from true rest.
Proof.
  induction tr as [|a tr IH]; [done|].
  intros [Ha Htr]%andb_prop. cbn [app Locking.guarded_from].
  destruct a; try done; by apply IH.
Qed.

Lemma addTransition_accesses_fields fm transition :
  forallb Locking.is_field (Locking.addTransition_accesses fm transition)
  = true.
Proof.
  destruct transition as [t|]; [|done]. unfold Locking.addTransition_accesses.
  by destruct (transitions fm), (tmap fm !! key_of t).
Qed.

Lemma AddTransitions_loop_fields fm ts :
  forallb Locking.is_field (Locking.AddTransitions_loop fm ts) = true.
Proof.
  revert fm. induction ts as [|transition ts IH]; intros fm; [done|].
  cbn [Locking.AddTransitions_loop]. rewrite forallb_app.
  rewrite addTransition_accesses_fields.
  destruct (addTransition fm transition) as [[[err|]|] fm'];
    cbn [andb]; [done|apply IH|done].
Qed.

End MutexDiscipline.

(** C10, on the code.  [Trigger] and [AddTransitions] hold the mutex
    around every access to the current state and to the table.
    [CurrentState] and [View] never take it: they read both fields with
    the mutex free. *)
Theorem mutex_discipline :
  (∀ World (fm : StateMachine World) event w,
     Locking.guarded (Locking.Trigger_accesses fm event w) = true) ∧
  (∀ World (fm : StateMachine World) ts,
     Locking.guarded (Locking.AddTransitions_accesses fm ts) = true) ∧
  (∀ World (fm : StateMachine World),
     (Locking.Lock ∉ Locking.CurrentState_accesses fm) ∧
     Locking.guarded (Locking.CurrentState_accesses fm) = false) ∧
  (∀ World (r : ranging World) (fm : StateMachine World),
     (Locking.Lock ∉ Locking.View_accesses r fm) ∧
     Locking.guarded (Locking.View_accesses r fm) = false).
Proof.
  split; [|split; [|split]].
  - intros World fm event w. unfold Locking.Trigger_accesses.
    destruct (tmap fm !! _) as [trans|]; [|done].
    destruct (Transition_Handle trans) as [handle|]; [|done].
    by destruct (handle _ _ _ _).1.
  - intros World fm ts. unfold Locking.AddTransitions_accesses, Locking.guarded.
    cbn [app Locking.guarded_from negb andb].
    by rewrite guarded_from_fields by apply AddTransitions_loop_fields.
  - intros World fm. split; [|done].
    by intros ?%list_elem_of_singleton.
  - intros World r fm. split; [|done].
    unfold Locking.View_accesses. intros Hin.
    repeat first
      [ apply elem_of_app in Hin as [Hin|Hin]
      | apply elem_of_cons in Hin as [Hin|Hin] ];
      try discriminate;
      try (apply list_elem_of_fmap in Hin as (? & Heq & _); discriminate).
    all: by apply elem_of_nil in Hin.
Qed.

(** ** The example program *)

(** The run of [example/simple.go]: three events are accepted and the
    fourth is not defined in the state reached. *)
Example OrderExample_run :
  let '(r1, fm1, w1) := Trigger OrderExample.fm OrderExample.EventPaySuccess [] in
  let '(r2, fm2, w2) := Trigger fm1 OrderExample.EventShip w1 in
  let '(r3, fm3, w3) := Trigger fm2 OrderExample.EventCancel w2 in
  let '(r4, fm4, w4) := Trigger fm3 OrderExample.EventApplyReturn w3 in
  [r1; r2; r3] = [Returns None; Returns None; Returns None] ∧
  CurrentState <$> [fm1; fm2; fm3; fm4] = ["已支付"; "已发货"; "退货中"; "退货中"] ∧
  r4 = Returns (Some (errorString
         "state, event: [退货中, 申请退货] undefined")) ∧
  length w4 = 3.
Proof. vm_compute. done. Qed.

(** The state diagram that the repository's README shows for the example:
    it is the text [View] gives once the payment has succeeded. *)
Example OrderExample_diagram :
  snd <$> View forward_ranging
            (Trigger OrderExample.fm OrderExample.EventPaySuccess []).1.2 =
  Some (join_lines
    ["stateDiagram";
     "    [*] --> 已支付";
     "    已发货 --> 退货中: 取消订单";
     "    已发货 --> 退货中: 申请退货";
     "    已发货 --> 已完成: 确认收货";
     "    已支付 --> 已发货: 发货";
     "    已支付 --> 退款中: 取消订单";
     "    已支付 --> 退款中: 申请退款";
     "    待支付 --> 已取消: 取消订单";
     "    待支付 --> 已支付: 支付成功";
     "    退款中 --> 已支付: 拒绝退款";
     "    退款中 --> 已取消: 退款成功";
     "    退货中 --> 已发货: 拒绝退货";
     "    退货中 --> 已完成: 确认收货";
     "    退货中 --> 退款中: 退货成功"]).
Proof. vm_compute. reflexivity. Qed.

(** * Further properties of the code *)

(** ** The comparison of keys *)

(** X1. The closure given to [sort.Slice] compares keys by [From] first
    and by [Event] among equal [From]s; it is a strict total order:
    no key is before itself, it is transitive, and of two different keys
    one is before the other. *)
Theorem less_strict_total (a b c : eKey) :
  (less a b = true ↔
     string_lt (eKey_From a) (eKey_From b) ∨
     (eKey_From a = eKey_From b ∧ string_lt (eKey_Event a) (eKey_Event b))) ∧
  less a a = false ∧
  (less a b = true → less b c = true → less a c = true) ∧
  (a = b ∨ less a b = true ∨ less b a = true).
Proof.
  split; [|split; [|split]].
  - unfold less. destruct (decide (eKey_From a = eKey_From b)) as [Heq|Hne].
    + fold (string_lt (eKey_Event a) (eKey_Event b)). split; [auto|].
      intros [Hlt|[_ Hlt]]; [|done].
      rewrite Heq in Hlt. apply string_lt_le in Hlt as [_ Hlt]. done.
    + fold (string_lt (eKey_From a) (eKey_From b)). split; [auto|].
      intros [Hlt|[Heq _]]; done.
  - destruct (less a a) eqn:Hlt; [|done].
    apply key_lt_in_order in Hlt as [_ Hne]. done.
  - intros [Hab Hne]%key_lt_in_order [Hbc Hne']%key_lt_in_order.
    apply key_lt_in_order. split; [by trans b|].
    intros ->. apply Hne. by apply (anti_symm (in_order less)).
  - destruct (decide (a = b)) as [|Hne]; [by left|]. right.
    destruct (total (in_order less) a b) as [Hab|Hba].
    + left. by apply key_lt_in_order.
    + right. apply key_lt_in_order. split; [done|]. by intros ->.
Qed.

Lemma less_strict_total_witness :
  less (EKey "Paid" "Cancel") (EKey "Paid" "Ship") = true ∧
  less (EKey "Paid" "Ship") (EKey "Pending" "Cancel") = true ∧
  less (EKey "Paid" "Cancel") (EKey "Pending" "Cancel") = true.
Proof.
  split; [reflexivity|]. split; [reflexivity|].
  apply (proj1 (proj2 (proj2 (less_strict_total
           (EKey "Paid" "Cancel") (EKey "Paid" "Ship")
           (EKey "Pending" "Cancel"))))); reflexivity.
Defined.

(** ** Batches *)

(** X2. One call of [AddTransitions] with a batch in two parts does what
    two calls do, one per part, provided the first goes through; when the
    first part fails or panics, the second part is not looked at and the
    outcome and the machine are those of the first part. *)
Theorem AddTransitions_batches {World} (fm : StateMachine World)
    (pre post : list (option (Transition World))) :
  AddTransitions fm (pre ++ post) =
    match AddTransitions fm pre with
    | (Returns None, fm1) => AddTransitions fm1 post
    | failure => failure
    end.
Proof.
  revert fm. induction pre as [|transition pre IH]; intros fm; [done|].
  rewrite <-app_comm_cons, !AddTransitions_cons.
  destruct (addTransition fm transition) as [[[err|]|] fm']; [done| |done].
  apply IH.
Qed.

Lemma AddTransitions_size {World} (fm fm' : StateMachine World)
    (ts : list (option (Transition World))) :
  AddTransitions fm ts = (Returns None, fm') →
  size (tmap fm') = size (tmap fm) + length ts.
Proof.
  revert fm. induction ts as [|tr ts IH]; intros fm Hts.
  { injection Hts as <-. simpl. lia. }
  rewrite AddTransitions_cons in Hts.
  destruct (addTransition_cases fm tr)
    as [[_ Heq]|[(?&?&_&_&Heq)|(t&->&Hfresh&Heq)]];
    rewrite Heq in Hts; try done.
  rewrite (IH _ Hts), tmap_insert, map_size_insert_None by done.
  simpl. lia.
Qed.

(** X3. A batch goes through exactly when it holds no [nil], no key
    twice and no key of the table.  The table then holds what it held
    before and the transitions of the batch, each under its own key, and
    it has grown by the length of the batch; the current state is kept. *)
Theorem AddTransitions_succeeds_iff {World} (fm : StateMachine World)
    (ts : list (option (Transition World))) :
  ((AddTransitions fm ts).1 = Returns None ↔
   ∃ l, ts = Some <$> l ∧ NoDup (key_of <$> l) ∧
        ∀ t, t ∈ l → tmap fm !! key_of t = None) ∧
  ((AddTransitions fm ts).1 = Returns None →
   (∀ k t, tmap (AddTransitions fm ts).2 !! k = Some t ↔
           tmap fm !! k = Some t ∨ (Some t ∈ ts ∧ key_of t = k)) ∧
   size (tmap (AddTransitions fm ts).2) = size (tmap fm) + length ts ∧
   current (AddTransitions fm ts).2 = current fm).
Proof.
  split; [split|].
  - destruct (AddTransitions fm ts) as [res fm'] eqn:Hts. simpl.
    intros ->. apply AddTransitions_success in Hts as (l & ? & ? & ? & _).
    by exists l.
  - intros (l & -> & Hnd & Hl). by apply AddTransitions_succeeds.
  - destruct (AddTransitions fm ts) as [res fm'] eqn:Hts. simpl.
    intros ->. split; [|split].
    + destruct (AddTransitions_success _ _ _ Hts) as (l & -> & _ & _ & Hchar).
      intros k t. rewrite Hchar. split.
      * intros [?|[Hin ?]]; [by left|right].
        split; [|done]. by apply list_elem_of_fmap_2.
      * intros [?|[Hin ?]]; [by left|right]. split; [|done].
        apply list_elem_of_fmap in Hin as (t' & [= ->] & Hin). done.
    + by apply AddTransitions_size.
    + pose proof (AddTransitions_current fm ts) as Hcur.
      by rewrite Hts in Hcur.
Qed.

Lemma AddTransitions_succeeds_iff_witness :
  tmap scenarioA !! EKey "Pending" "Pay" =
    Some (MkTransition "Pending" "Pay" "Paid" (Some succeed)) ∧
  size (tmap scenarioA) = 2 ∧ current scenarioA = "Pending".
Proof.
  destruct (proj2 (AddTransitions_succeeds_iff (NewStateMachine "Pending")
              [transition "Pending" "Pay" "Paid" succeed;
               transition "Pending" "Cancel" "Canceled" succeed]) eq_refl)
    as (Hlook & Hsize & Hcur).
  split; [|split; [exact Hsize|exact Hcur]].
  apply Hlook. right. split; [|reflexivity]. left.
Defined.

(** X4. A [nil] pointer in a batch makes [AddTransitions] panic when the
    loop reaches it: the transitions before it stay registered, those
    after it are not processed, and the map is not even allocated when
    the [nil] comes first on a new machine. *)
Theorem AddTransitions_nil {World} (fm fm1 : StateMachine World)
    (pre post : list (option (Transition World))) :
  AddTransitions fm pre = (Returns None, fm1) →
  AddTransitions fm (pre ++ None :: post) = (Panics, fm1) ∧
  (∀ transition, transition ∈ pre →
     ∃ t, transition = Some t ∧ tmap fm1 !! key_of t = Some t) ∧
  (pre = [] → transitions fm1 = transitions fm).
Proof.
  intros Hpre. split; [|split].
  - by rewrite AddTransitions_batches, Hpre.
  - intros transition Hin. by eapply AddTransitions_registers.
  - intros ->. by injection Hpre as <-.
Qed.

Lemma AddTransitions_nil_witness :
  AddTransitions (World := nat) (NewStateMachine "A")
    ([transition "A" "e1" "B" succeed] ++ None ::
     [transition "B" "e2" "C" succeed]) =
    (Panics,
     (AddTransitions (NewStateMachine "A") [transition "A" "e1" "B" succeed]).2).
Proof.
  apply (AddTransitions_nil (NewStateMachine "A") _
           [transition "A" "e1" "B" succeed]
           [transition "B" "e2" "C" succeed]).
  reflexivity.
Defined.

(** X5. [AddTransitions] does not look at the [Handle] field: a
    transition without handler is registered like any other, and the
    [Trigger] that then finds it panics on the call of the [nil] function,
    leaving the machine and the caller's world as they were. *)
Theorem Trigger_without_handler {World} (fm : StateMachine World)
    (t : Transition World) (w : World) :
  Transition_Handle t = None →
  tmap fm !! key_of t = None →
  current fm = Transition_From t →
  (AddTransitions fm [Some t]).1 = Returns None ∧
  Trigger (AddTransitions fm [Some t]).2 (Transition_Event t) w =
    (Panics, (AddTransitions fm [Some t]).2, w).
Proof.
  intros Hnil Hfresh Hcur.
  rewrite AddTransitions_cons, (addTransition_fresh _ _ Hfresh).
  split; [done|]. cbn [AddTransitions snd]. unfold Trigger.
  rewrite tmap_insert. cbn [current]. rewrite Hcur. fold (key_of t).
  by rewrite lookup_insert_eq, Hnil.
Qed.

Lemma Trigger_without_handler_witness :
  (AddTransitions (NewStateMachine "A") [Some bare_transition]).1
    = Returns None ∧
  Trigger (AddTransitions (NewStateMachine "A") [Some bare_transition]).2 "X" 0 =
    (Panics, (AddTransitions (NewStateMachine "A") [Some bare_transition]).2, 0).
Proof.
  apply (Trigger_without_handler (NewStateMachine "A") bare_transition 0);
    reflexivity.
Defined.

(** ** Histories *)

Lemma step_keeps {World}
    (st : StateMachine World * World * list (Transition World))
    (c : call World) (k : eKey) (t : Transition World) :
  tmap st.1.1 !! k = Some t → tmap (step st c).1.1 !! k = Some t.
Proof.
  destruct st as [[fm w] applied]. cbn [fst snd]. intros Hk.
  destruct c as [ts|event]; unfold step.
  - cbn [fst snd]. by apply AddTransitions_keeps.
  - pose proof (Trigger_tmap fm event w) as Htmap.
    destruct (Trigger fm event w) as [[res fm'] w']. cbn [fst snd] in *.
    by rewrite Htmap.
Qed.

Lemma steps_keep {World}
    (st : StateMachine World * World * list (Transition World))
    (calls : list (call World)) (k : eKey) (t : Transition World) :
  tmap st.1.1 !! k = Some t → tmap (foldl step st calls).1.1 !! k = Some t.
Proof.
  revert st. induction calls as [|c calls IH]; intros st Hk; [done|].
  simpl. by apply IH, step_keeps.
Qed.

(** X6. Nothing is ever taken out of the table or replaced in it: a
    transition found under a key after some calls on a new machine is
    found there after any further [AddTransitions] and [Trigger] calls, and
    the key is the transition's own [(From, Event)]. *)
Theorem registrations_persist {World} (init : State) (w : World)
    (calls calls' : list (call World)) (k : eKey) (t : Transition World) :
  tmap (run init w calls).1.1 !! k = Some t →
  tmap (run init w (calls ++ calls')).1.1 !! k = Some t ∧
  k = EKey (Transition_From t) (Transition_Event t).
Proof.
  intros Hk. split.
  - unfold run. rewrite foldl_app. by apply steps_keep.
  - destruct (provenance_run init w calls) as (_ & Hkeyed & _).
    by apply Hkeyed.
Qed.

Lemma registrations_persist_witness :
  tmap (run "Pending" 0
          ([CallAddTransitions [transition "Pending" "Pay" "Paid" succeed]] ++
           [CallTrigger "Pay";
            CallAddTransitions [transition "Pending" "Pay" "Void" refuse]])).1.1
    !! EKey "Pending" "Pay" =
    Some (MkTransition "Pending" "Pay" "Paid" (Some succeed)) ∧
  EKey "Pending" "Pay" = EKey "Pending" "Pay".
Proof.
  apply (registrations_persist "Pending" 0
           [CallAddTransitions [transition "Pending" "Pay" "Paid" succeed]]
           [CallTrigger "Pay";
            CallAddTransitions [transition "Pending" "Pay" "Void" refuse]]).
  reflexivity.
Defined.

(** X7. A state without outgoing transitions is a dead end: every
    [Trigger] fails there with the undefined-transition error, and any
    number of [Trigger] calls leaves the machine, the caller's world and
    the log of applied transitions as they are. *)
Theorem dead_end_absorbs {World} (fm : StateMachine World) (w : World)
    (applied : list (Transition World)) (events : list Event) :
  (∀ k, eKey_From k = current fm → tmap fm !! k = None) →
  foldl step (fm, w, applied) (CallTrigger <$> events) = (fm, w, applied) ∧
  ∀ event, (Trigger fm event w).1.1 =
             Returns (Some (undefined_error (current fm) event)).
Proof.
  intros Hdead.
  assert (Hone : ∀ event,
    Trigger fm event w =
      (Returns (Some (undefined_error (current fm) event)), fm, w)).
  { intros event. unfold Trigger. by rewrite (Hdead (EKey (current fm) event)). }
  split; [|intros event; by rewrite Hone].
  assert (Hstep : ∀ event,
    step (fm, w, applied) (CallTrigger event) = (fm, w, applied)).
  { intros event. unfold step. by rewrite Hone. }
  induction events as [|event events IH]; [done|].
  rewrite fmap_cons. cbn [foldl]. by rewrite Hstep.
Qed.

Lemma dead_end_absorbs_witness :
  foldl step ((Trigger scenarioA "Pay" 0).1.2, 1, [])
    (CallTrigger <$> ["Cancel"; "Pay"; "Refund"]) =
    ((Trigger scenarioA "Pay" 0).1.2, 1, []).
Proof.
  apply (dead_end_absorbs (Trigger scenarioA "Pay" 0).1.2 1 []
           ["Cancel"; "Pay"; "Refund"]).
  intros k Hk.
  destruct (tmap (Trigger scenarioA "Pay" 0).1.2 !! k) as [t|] eqn:Hl;
    [exfalso|reflexivity].
  apply elem_of_map_to_list in Hl.
  assert (Hlist : (map_to_list (tmap (Trigger scenarioA "Pay" 0).1.2)).*1 =
                  [EKey "Pending" "Cancel"; EKey "Pending" "Pay"])
    by (vm_compute; reflexivity).
  apply (list_elem_of_fmap_2 fst) in Hl. rewrite Hlist in Hl. cbn [fst] in Hl.
  apply elem_of_cons in Hl as [->|Hl]; [discriminate Hk|].
  apply list_elem_of_singleton in Hl as ->. discriminate Hk.
Defined.

(** ** The identifiers of the flow chart *)

Lemma position_lookup (states : list string) (i : nat) (s : string) :
  NoDup states → states !! i = Some s → position s states = Some i.
Proof.
  intros Hnd. revert i.
  induction Hnd as [|x rest Hx Hnd IH]; intros i Hi; [done|].
  destruct i as [|i]; simpl in *.
  - injection Hi as ->. by rewrite decide_True.
  - rewrite decide_False.
    + by rewrite (IH i Hi).
    + intros ->. apply Hx. by eapply list_elem_of_lookup_2.
Qed.

Lemma position_Some (states : list string) (i : nat) (s : string) :
  position s states = Some i → states !! i = Some s.
Proof.
  revert i. induction states as [|x rest IH]; intros i; [done|].
  simpl. case_decide as Hx.
  - intros [= <-]. by subst.
  - destruct (position s rest) as [j|]; [|done].
    intros [= <-]. by apply IH.
Qed.

Lemma sorted_states_NoDup {World} (r : ranging World)
    (m : gmap eKey (Transition World)) :
  faithful r → NoDup (getSortedStates r m).1.
Proof.
  intros Hr. rewrite (sorted_states_Permutation r m Hr).
  apply NoDup_fst_map_to_list.
Qed.

(** X8. In the flow chart the state names get the identifiers [id0],
    [id1], ... in the order of the sorted names; a name that is no state
    of the table reads as the empty identifier; two different states never
    share an identifier. *)
Theorem flowchart_ids {World} (r : ranging World)
    (m : gmap eKey (Transition World)) :
  faithful r →
  (∀ i s, (getSortedStates r m).1 !! i = Some s →
          id_of (getSortedStates r m).2 s = "id" +:+ pretty i) ∧
  (∀ s, ¬ is_state m s → id_of (getSortedStates r m).2 s = EmptyString) ∧
  (∀ s s', is_state m s → is_state m s' →
           id_of (getSortedStates r m).2 s = id_of (getSortedStates r m).2 s' →
           s = s').
Proof.
  intros Hr. pose proof (sorted_states_NoDup r m Hr) as Hnd.
  assert (Hat : ∀ i s, (getSortedStates r m).1 !! i = Some s →
                id_of (getSortedStates r m).2 s = "id" +:+ pretty i).
  { intros i s Hi. rewrite (sorted_ids_synthetic r m s Hr).
    unfold synthetic_id. by rewrite (position_lookup _ _ _ Hnd Hi). }
  split; [done|]. split.
  - intros s Hs. rewrite (sorted_ids_synthetic r m s Hr).
    unfold synthetic_id. rewrite position_None; [done|].
    by rewrite (elem_of_sorted_states r m s Hr).
  - intros s s' Hs Hs'.
    apply (elem_of_sorted_states r m s Hr), list_elem_of_lookup in Hs as [i Hi].
    apply (elem_of_sorted_states r m s' Hr), list_elem_of_lookup in Hs' as [j Hj].
    rewrite (Hat i s Hi), (Hat j s' Hj). intros Heq.
    apply (inj (String.app "id")), (inj pretty) in Heq. subst j.
    congruence.
Qed.

Lemma flowchart_ids_witness :
  id_of (getSortedStates forward_ranging (tmap scenarioD)).2 "C" = "id2" ∧
  id_of (getSortedStates forward_ranging (tmap scenarioD)).2 "Z" = EmptyString.
Proof.
  destruct (flowchart_ids forward_ranging (tmap scenarioD) faithful_forward)
    as (Hat & Hnone & _).
  split.
  - apply (Hat 2 "C"). vm_compute. reflexivity.
  - apply Hnone. intros (k & t & Hk & Hs).
    apply elem_of_map_to_list in Hk.
    assert (Hlist : (λ e : eKey * Transition nat,
                       (eKey_From e.1, Transition_To e.2))
                    <$> map_to_list (tmap scenarioD) =
                  [("C", "A"); ("A", "B"); ("B", "C")])
      by (vm_compute; reflexivity).
    apply (list_elem_of_fmap_2
             (λ e : eKey * Transition nat, (eKey_From e.1, Transition_To e.2)))
      in Hk.
    rewrite Hlist in Hk. cbn [fst snd] in Hk.
    repeat (apply elem_of_cons in Hk as [[= Hf Ht]|Hk];
            [destruct Hs as [Hs|Hs]; congruence|]).
    by apply elem_of_nil in Hk.
Defined.

(** ** What the texts depend on *)

Lemma StronglySorted_strict_NoDup {A} (R : relation A) (l : list A) :
  (∀ a, ¬ R a a) → StronglySorted R l → NoDup l.
Proof.
  intros Hirr Hs. induction Hs as [|x l Hs IH Hx]; constructor; [|done].
  intros Hin. rewrite Forall_forall in Hx. by apply (Hirr x), Hx.
Qed.

Lemma key_lt_asymmetric (a b : eKey) : key_lt a b → key_lt b a → False.
Proof.
  intros [Hab Hne]%key_lt_in_order [Hba _]%key_lt_in_order.
  by apply Hne, (anti_symm (in_order less)).
Qed.

Lemma string_lt_asymmetric (a b : string) :
  string_lt a b → string_lt b a → False.
Proof.
  intros [Hab Hne]%string_lt_le [Hba _]%string_lt_le.
  by apply Hne, (anti_symm String.le).
Qed.

Lemma sorted_entries_unique {V} (es es' : list (eKey * V)) :
  es ≡ₚ es' →
  StronglySorted key_lt es.*1 → StronglySorted key_lt es'.*1 → es = es'.
Proof.
  intros Hperm Hs Hs'.
  assert (Hlift : ∀ l : list (eKey * V),
    StronglySorted key_lt l.*1 → StronglySorted (λ e e', key_lt e.1 e'.1) l).
  { induction l as [|e l IH]; [constructor|].
    rewrite fmap_cons. intros [He Hl]%StronglySorted_cons.
    constructor; [by apply IH|].
    apply Forall_forall. intros e' He'.
    apply (proj1 (Forall_forall _ _) He). by apply list_elem_of_fmap_2. }
  apply (StronglySorted_unique_strong (λ e e', key_lt e.1 e'.1));
    [|by apply Hlift..|done].
  intros e e' _ _ Hlt Hgt. by destruct (key_lt_asymmetric _ _ Hlt Hgt).
Qed.

Lemma sorted_states_unique (states states' : list string) :
  (∀ s, s ∈ states ↔ s ∈ states') →
  StronglySorted string_lt states → StronglySorted string_lt states' →
  states = states'.
Proof.
  intros Hiff Hs Hs'.
  assert (Hirr : ∀ a, ¬ string_lt a a).
  { intros a Ha. by apply (string_lt_asymmetric a a). }
  apply (StronglySorted_unique_strong string_lt); [|done..|].
  - intros s s' _ _ Hlt Hgt. by destruct (string_lt_asymmetric _ _ Hlt Hgt).
  - apply NoDup_Permutation; [by eapply StronglySorted_strict_NoDup..|done].
Qed.

(** X9. When the current state is no state of the table (it is neither a
    [from] nor a [to] of a registered transition), the graph description
    marks no node and the highlight directive of the flow chart has an
    empty identifier; the state diagram still starts at the current
    state. *)
Theorem View_current_unknown {World} (r : ranging World)
    (fm : StateMachine World) :
  faithful r → ¬ is_state (tmap fm) (current fm) →
  ∃ es states,
    es ≡ₚ map_to_list (tmap fm) ∧ StronglySorted key_lt es.*1 ∧
    (∀ s, s ∈ states ↔ is_state (tmap fm) s) ∧
    StronglySorted string_lt states ∧
    View r fm =
      Some (join_lines (["digraph fsm {"] ++ (graphviz_edge <$> es)
                        ++ [EmptyString]
                        ++ ((λ k, "    " +:+ dq +:+ k +:+ dq +:+ ";") <$> states)
                        ++ ["}"]),
            join_lines (["graph LR"]
                        ++ (flowchart_node (synthetic_id states) <$> states)
                        ++ [EmptyString]
                        ++ (flowchart_edge (synthetic_id states) <$> es)
                        ++ [EmptyString] ++ ["    style  fill:#00AA00"]),
            join_lines (["stateDiagram"; "    [*] --> " +:+ current fm]
                        ++ (diagram_line <$> es))).
Proof.
  intros Hr Hcur.
  destruct (View_renders r fm Hr)
    as (es & states & Hes & Hsorted & Hstates & Hssorted & Hview).
  exists es, states. do 4 (split; [done|]). rewrite Hview.
  unfold render_graphviz, render_flowchart, render_diagram.
  assert (Hnot : current fm ∉ states) by by rewrite Hstates.
  unfold synthetic_id at 3. rewrite (position_None _ _ Hnot).
  rewrite (list_fmap_ext (graphviz_node (current fm))
             (λ k, "    " +:+ dq +:+ k +:+ dq +:+ ";") states); [done|].
  intros i s Hi. unfold graphviz_node. rewrite decide_False; [done|].
  intros ->. apply Hnot. by eapply list_elem_of_lookup_2.
Qed.

Lemma View_current_unknown_witness :
  ∃ graphViz flowChart diagram,
    View forward_ranging (MkStateMachine "Z" (transitions scenarioD)) =
      Some (graphViz, flowChart, diagram).
Proof.
  destruct (View_current_unknown forward_ranging
              (MkStateMachine "Z" (transitions scenarioD)) faithful_forward)
    as (es & states & _ & _ & _ & _ & Hview).
  - intros (k & t & Hk & Hs). apply elem_of_map_to_list in Hk.
    assert (Hlist : (λ e : eKey * Transition nat,
                       (eKey_From e.1, Transition_To e.2))
                    <$> map_to_list (tmap scenarioD) =
                  [("C", "A"); ("A", "B"); ("B", "C")])
      by (vm_compute; reflexivity).
    apply (list_elem_of_fmap_2
             (λ e : eKey * Transition nat, (eKey_From e.1, Transition_To e.2)))
      in Hk.
    change (tmap (MkStateMachine "Z" (transitions scenarioD)))
      with (tmap scenarioD) in Hk.
    rewrite Hlist in Hk. cbn [fst snd current] in Hk, Hs.
    repeat (apply elem_of_cons in Hk as [[= Hf Ht]|Hk];
            [destruct Hs as [Hs|Hs]; congruence|]).
    by apply elem_of_nil in Hk.
  - eauto.
Defined.

(** X10. [Trigger] changes nothing in the three texts but the state they
    point at: before and after the call the renderer writes the same
    transition lines and the same state lines, built from the same sorted
    entries and state names, around the current state of the moment. *)
Theorem View_after_Trigger {World} (r : ranging World)
    (fm : StateMachine World) (event : Event) (w : World) :
  faithful r →
  ∃ (es : list (eKey * Transition World)) (states : list string),
    View r fm = Some (render_graphviz (current fm) es states,
                      render_flowchart (current fm) es states,
                      render_diagram (current fm) es) ∧
    View r (Trigger fm event w).1.2 =
      Some (render_graphviz (current (Trigger fm event w).1.2) es states,
            render_flowchart (current (Trigger fm event w).1.2) es states,
            render_diagram (current (Trigger fm event w).1.2) es).
Proof.
  intros Hr.
  destruct (View_renders r fm Hr)
    as (es & states & Hes & Hsorted & Hstates & Hssorted & Hview).
  destruct (View_renders r (Trigger fm event w).1.2 Hr)
    as (es' & states' & Hes' & Hsorted' & Hstates' & Hssorted' & Hview').
  rewrite Trigger_tmap in Hes', Hstates'.
  assert (es' = es) as ->.
  { apply sorted_entries_unique; [|done..]. by rewrite Hes, Hes'. }
  assert (states' = states) as ->.
  { apply sorted_states_unique; [|done..].
    intros s. by rewrite Hstates, Hstates'. }
  by exists es, states.
Qed.

Lemma View_after_Trigger_witness :
  ∃ (es : list (eKey * Transition nat)) (states : list string),
    View backward_ranging scenarioD =
      Some (render_graphviz "A" es states, render_flowchart "A" es states,
            render_diagram "A" es) ∧
    View backward_ranging (Trigger scenarioD "e1" 0).1.2 =
      Some (render_graphviz "B" es states, render_flowchart "B" es states,
            render_diagram "B" es).
Proof.
  exact (View_after_Trigger backward_ranging scenarioD "e1" 0
           faithful_backward).
Defined.

(** ** The registration loop of the example program *)

(** X11. The loop of [main], one [AddTransitions] call for each entry and
    a stop at the first error, does what a single call with all entries
    does: same outcome, same machine.  For the entries of the example the
    loop goes through and leaves thirteen transitions. *)
Theorem register_as_batch :
  (∀ (fm : StateMachine (list string)) (es : list (State * Event * State)),
     OrderExample.register fm es = AddTransitions fm (order_batch es)) ∧
  (OrderExample.register (NewStateMachine OrderExample.StatePending)
     OrderExample.eTos).1 = Returns None ∧
  size (tmap OrderExample.fm) = 13.
Proof.
  split.
  - intros fm es. revert fm.
    induction es as [|[[F E] T] es IH]; intros fm; [done|].
    unfold order_batch. rewrite fmap_cons. fold (order_batch es).
    cbn [OrderExample.register fst snd]. rewrite !AddTransitions_cons.
    destruct (addTransition fm _) as [[[err|]|] fm']; [done| |done].
    cbn [AddTransitions]. apply IH.
  - split; vm_compute; reflexivity.
Qed.

(** ** The lines of the state diagram *)






(** ** The handler and the mutex *)

(** X13. Whenever [Trigger] calls a handler, it does so with the mutex
    held, taken before and released after: a handler that calls
    [Trigger] or [AddTransitions] on the same machine finds the mutex
    taken. *)
Theorem handler_runs_locked {World} (fm : StateMachine World)
    (event : Event) (w : World) (pre post : list Locking.access) :
  Locking.Trigger_accesses fm event w = pre ++ Locking.CallHandle :: post →
  held_after false pre = true ∧
  held_after true post = false ∧
  (Locking.Unlock ∉ pre).
Proof.
  unfold Locking.Trigger_accesses.
  destruct (tmap fm !! _) as [trans|];
    [destruct (Transition_Handle trans) as [handle|];
       [destruct (handle _ _ _ _).1|]|];
    intros Heq;
    repeat (destruct pre as [|? pre]; simplify_eq/=);
    repeat split; try done;
    intros Hin; repeat (apply elem_of_cons in Hin as [?|Hin]; [done|]);
    by apply elem_of_nil in Hin.
Qed.

Lemma handler_runs_locked_witness :
  held_after false
    [Locking.Lock; Locking.ReadTransitions; Locking.ReadCurrent;
     Locking.ReadCurrent] = true ∧
  held_after true [Locking.WriteCurrent; Locking.Unlock] = false ∧
  (Locking.Unlock ∉
    [Locking.Lock; Locking.ReadTransitions; Locking.ReadCurrent;
     Locking.ReadCurrent]).
Proof.
  apply (handler_runs_locked scenarioA "Pay" 0
           [Locking.Lock; Locking.ReadTransitions; Locking.ReadCurrent;
            Locking.ReadCurrent]
           [Locking.WriteCurrent; Locking.Unlock]).
  reflexivity.
Defined.

(** ** The texts, from any sorted listing of the table *)

(** X14. The three texts can be computed without running the renderer:
    list the entries of the table in increasing order of their keys and
    the names of its states in increasing order; the texts of the
    specification for these two lists and the current state are what
    [View] returns. *)
Theorem View_from_sorted_listing {World} (r : ranging World)
    (fm : StateMachine World) (es : list (eKey * Transition World))
    (states : list string) :
  faithful r →
  es ≡ₚ map_to_list (tmap fm) → StronglySorted key_lt es.*1 →
  (∀ s, s ∈ states ↔ is_state (tmap fm) s) →
  StronglySorted string_lt states →
  View r fm = Some (render_graphviz (current fm) es states,
                    render_flowchart (current fm) es states,
                    render_diagram (current fm) es).
Proof.
  intros Hr Hes Hsorted Hstates Hssorted.
  destruct (View_renders r fm Hr)
    as (es' & states' & Hes' & Hsorted' & Hstates' & Hssorted' & ->).
  rewrite (sorted_entries_unique es es'); [|by rewrite Hes, Hes'|done..].
  rewrite (sorted_states_unique states states'); [done| |done..].
  intros s. by rewrite Hstates, Hstates'.
Qed.

Lemma View_from_sorted_listing_witness :
  View backward_ranging scenarioC =
    Some (render_graphviz "A"
            [(EKey "A" "X", MkTransition "A" "X" "B" (Some refuse))] ["A"; "B"],
          render_flowchart "A"
            [(EKey "A" "X", MkTransition "A" "X" "B" (Some refuse))] ["A"; "B"],
          render_diagram "A"
            [(EKey "A" "X", MkTransition "A" "X" "B" (Some refuse))]).
Proof.
  assert (Hlist : map_to_list (tmap scenarioC) =
                  [(EKey "A" "X", MkTransition "A" "X" "B" (Some refuse))])
    by (vm_compute; reflexivity).
  apply (View_from_sorted_listing backward_ranging scenarioC
           [(EKey "A" "X", MkTransition "A" "X" "B" (Some refuse))]
           ["A"; "B"] faithful_backward).
  - by rewrite Hlist.
  - repeat constructor.
  - intros s. rewrite <-elem_of_states_of, Hlist. reflexivity.
  - repeat constructor.
Defined.
